(** * k8s-ephemeral-storage-metrics: the snapshot manager and the metric emitter

    A shallow embedding of [collector.go]: the [manager] with its polling
    goroutine, [Start], [Stop], [RecentStats], and the Prometheus collector
    built on top of it.

    Conventions of the embedding.
    - Go pointers are locations in a typed store with bump allocation (Go never
      frees a reachable cell).  [*podEphemeralStorageStat], [*stats.FsStats] and
      the backing arrays of [[]podEphemeralStorageStat] live in separate heaps,
      as their Go types cannot alias.
    - [time.Duration] is an [int64] count of nanoseconds: a [Z] with the
      wrap-around of the subtraction written out.
    - [uint64] byte counts are [Z]; the conversion to [float64] done by the
      extractors is kept as the integer that is converted.
    - The REST call, [json.Unmarshal] and the clock are the environment of the
      polling loop: one [cycle_input] per iteration and a decoder parameter.
    - The goroutine interleaving is a labelled transition system whose atomic
      steps are the critical sections of the source. *)

From Stdlib Require Import ZArith Lia Ascii DecimalPos DecimalString.
From stdpp Require Import base option list strings.

Local Open Scope Z_scope.

(** ** The kubelet stats API types read by the program
    (k8s.io/kubelet/pkg/apis/stats/v1alpha1), restricted to the fields
    [collector.go] reads.  A [*uint64] field is [option Z], [None] being nil. *)
Module stats.

Record FsStats := {
  AvailableBytes : option Z;
  CapacityBytes : option Z;
  UsedBytes : option Z;
}.

(** [PodReference] is a struct value inside [PodStats]: a payload without
    [podRef] decodes to the zero value, both names empty. *)
Record PodReference := {
  Name : string;
  Namespace : string;
}.

(** [EphemeralStorage] is a [*FsStats], nil when the payload has none. *)
Record PodStats := {
  PodRef : PodReference;
  EphemeralStorage : option FsStats;
}.

Record NodeStats := {
  NodeName : string;
}.

Record Summary := {
  Node : NodeStats;
  Pods : list PodStats;
}.

(** The value of [&stats.Summary{}]. *)
Definition zero_Summary : Summary :=
  {| Node := {| NodeName := "" |}; Pods := [] |}.

End stats.

(** ** Store *)

Abbreviation loc := nat (only parsing).

(** [podEphemeralStorageStat]: three named fields and the embedded
    [*stats.FsStats]. *)
Record podEphemeralStorageStat := {
  nodeName : string;
  podName : string;
  namespace : string;
  FsStats : option loc;
}.

Record store := {
  recHeap : list podEphemeralStorageStat;
  fsHeap : list stats.FsStats;
  sliceHeap : list (list podEphemeralStorageStat);
}.

Definition empty_store : store :=
  {| recHeap := []; fsHeap := []; sliceHeap := [] |}.

(** [&podEphemeralStorageStat{...}] *)
Definition alloc_rec (r : podEphemeralStorageStat) (h : store) : loc * store :=
  (length (recHeap h),
   {| recHeap := recHeap h ++ [r]; fsHeap := fsHeap h; sliceHeap := sliceHeap h |}).

(** The [FsStats] object [json.Unmarshal] allocated for one pod entry; a nil
    pointer allocates nothing. *)
Definition alloc_fs (o : option stats.FsStats) (h : store) : option loc * store :=
  match o with
  | None => (None, h)
  | Some fs =>
      (Some (length (fsHeap h)),
       {| recHeap := recHeap h; fsHeap := fsHeap h ++ [fs]; sliceHeap := sliceHeap h |})
  end.

(** The backing array of a freshly grown slice. *)
Definition alloc_slice (s : list podEphemeralStorageStat) (h : store) : loc * store :=
  (length (sliceHeap h),
   {| recHeap := recHeap h; fsHeap := fsHeap h; sliceHeap := sliceHeap h ++ [s] |}).

(** ** The manager *)

(** [chan struct{}]: nothing is ever sent on [stopCh], it is only closed. *)
Inductive chan := ChNil | ChOpen | ChClosed.

Inductive log_entry :=
| LogError (msg : string)
| LogWarning (msg : string)
| LogInfoV (v : nat) (msg : string).

(** [cli] is the environment; [statsLastUpdatedTime] is never written.
    [statsLock] only guards single atomic steps of the model.  [lock] is
    [m.lock]: [true] while some caller holds it across steps. *)
Record manager := {
  node : string;
  scrapeInterval : Z;
  podEphemeralStorageStats : list loc;
  wg : nat;
  stopCh : chan;
  lock : bool;
  running : bool;
}.

(** The local state of the polling goroutine: the duration its timer was last
    armed with ([time.NewTimer] or [timer.Reset]). *)
Record goroutine := {
  timer : Z;
}.

Record world := {
  mgr : manager;
  heap : store;
  goroutines : list goroutine;
  klog : list log_entry;
}.

(** [NewManager]; the node name comes from the environment. *)
Definition NewManager (currentNode : option string) (interval : Z) : world :=
  {| mgr := {| node := default "" currentNode;
               scrapeInterval := interval;
               podEphemeralStorageStats := [];
               wg := 0;
               stopCh := ChNil;
               lock := false;
               running := false |};
     heap := empty_store;
     goroutines := [];
     klog := match currentNode with
             | Some _ => []
             | None => [LogWarning "current node info is not passed."]
             end |}.

(** ** One iteration of the polling loop *)

(** What the environment hands to one iteration: the result of [DoRaw] and the
    time the iteration took ([end.Sub(start)]). *)
Record cycle_input := {
  content : string;
  err : option string;
  elapsed : Z;
}.

Definition wrap64 (z : Z) : Z := (z + 2 ^ 63) mod 2 ^ 64 - 2 ^ 63.

(** The build loop of [Start], lines 88-100: every entry is projected and
    appended. *)
Fixpoint build_snapshot (nodeName : string) (pods : list stats.PodStats)
    (podEphemeralStorageStats : list loc) (h : store) : list loc * store :=
  match pods with
  | [] => (podEphemeralStorageStats, h)
  | podStat :: rest =>
      let podRef := stats.PodRef podStat in
      let '(ephemeralStorageStat, h1) := alloc_fs (stats.EphemeralStorage podStat) h in
      let '(p, h2) :=
        alloc_rec {| namespace := stats.Namespace podRef;
                     nodeName := nodeName;
                     podName := stats.Name podRef;
                     FsStats := ephemeralStorageStat |} h1 in
      build_snapshot nodeName rest (podEphemeralStorageStats ++ [p]) h2
  end.

(** How a [select] arm leaves the [select] statement. *)
Inductive control := FallThrough | ReturnFromFunc.

Inductive select_case := RecvStop | RecvTimer.

(** [case <-m.stopCh:] is ready once the channel is closed (a receive from a
    nil or an open, empty channel blocks); [case <-timer.C:] becomes ready
    when the armed delay has passed, which the model leaves to the scheduler. *)
Definition select_ready (m : manager) (c : select_case) : bool :=
  match c with
  | RecvStop => match stopCh m with ChClosed => true | _ => false end
  | RecvTimer => true
  end.

(** Lines 72-75: both arms of the [select] have an empty body. *)
Definition select_arm (c : select_case) : control :=
  match c with
  | RecvStop => FallThrough
  | RecvTimer => FallThrough
  end.

Definition set_snapshot (m : manager) (s : list loc) : manager :=
  {| node := node m; scrapeInterval := scrapeInterval m;
     podEphemeralStorageStats := s;
     wg := wg m; stopCh := stopCh m; lock := lock m; running := running m |}.

Inductive iteration_result :=
| Looped (w : world) (g : goroutine)
| Exited (w : world)
| Panicked.

(** The deferred calls of the goroutine, run when its function returns:
    [timer.Stop()] and [m.wg.Done()]. *)
Definition goroutine_exit (w : world) : world :=
  let m := mgr w in
  {| mgr := {| node := node m; scrapeInterval := scrapeInterval m;
               podEphemeralStorageStats := podEphemeralStorageStats m;
               wg := pred (wg m); stopCh := stopCh m; lock := lock m;
               running := running m |};
     heap := heap w; goroutines := goroutines w; klog := klog w |}.

Section Polling.

(** [json.Unmarshal(content, &raw)] on [raw := &stats.Summary{}] with its
    error discarded: the summary [raw] points to after the call, [None] when
    the call left [raw] nil (the JSON literal [null]).  A content that does
    not parse leaves the zero summary. *)
Variable json_Unmarshal : string -> option stats.Summary.

(** Lines 76-113, after the [select]. *)
Definition poll_cycle (inp : cycle_input) (w : world) : iteration_result :=
  let m := mgr w in
  let fetch_log :=
    match err inp with Some e => [LogError e] | None => [] end
    ++ [LogInfoV 4 ("Fetched proxy stats from node : %s" +:+ node m)] in
  match json_Unmarshal (content inp) with
  | None => Panicked
  | Some raw =>
      let nodeName := stats.NodeName (stats.Node raw) in
      let '(podEphemeralStorageStats, h) :=
        build_snapshot nodeName (stats.Pods raw) [] (heap w) in
      let duration := elapsed inp in
      Looped
        {| mgr := set_snapshot m podEphemeralStorageStats;
           heap := h;
           goroutines := goroutines w;
           klog := klog w ++ fetch_log
                   ++ [LogInfoV 3 "Taking time to get node stat summary"] |}
        {| timer := wrap64 (scrapeInterval m - duration) |}
  end.

(** One turn of [for { select {...}; ... }] taken through arm [c]. *)
Definition loop_iteration (c : select_case) (inp : cycle_input) (w : world)
    : iteration_result :=
  match select_arm c with
  | ReturnFromFunc => Exited (goroutine_exit w)
  | FallThrough => poll_cycle inp w
  end.

End Polling.

(** ** Start, Stop, RecentStats *)

Definition AlreadyRunning : string := "ephemeral metrics manager is already running".

(** [Start]: a critical section of [m.lock]. *)
Definition Start (w : world) : world * option string :=
  let m := mgr w in
  if running m then (w, Some AlreadyRunning)
  else
    ({| mgr := {| node := node m; scrapeInterval := scrapeInterval m;
                  podEphemeralStorageStats := podEphemeralStorageStats m;
                  wg := S (wg m); stopCh := ChOpen; lock := lock m;
                  running := true |};
        heap := heap w;
        goroutines := goroutines w ++ [{| timer := 0 |}];
        klog := klog w |},
     None).

Inductive stop_outcome :=
| StopReturned (w : world) (e : option string)
| StopParked (w : world)
| StopPanicked.

(** [Stop] up to its return or to the point where it blocks in [m.wg.Wait()],
    still holding [m.lock]. *)
Definition Stop (w : world) : stop_outcome :=
  let m := mgr w in
  if negb (running m) then
    StopReturned
      {| mgr := m; heap := heap w; goroutines := goroutines w;
         klog := klog w ++ [LogWarning "metrics manager already stopped"] |}
      None
  else
    match stopCh m with
    | ChOpen =>
        match wg m with
        | O =>
            StopReturned
              {| mgr := {| node := node m; scrapeInterval := scrapeInterval m;
                           podEphemeralStorageStats := podEphemeralStorageStats m;
                           wg := wg m; stopCh := ChClosed; lock := lock m;
                           running := false |};
                 heap := heap w; goroutines := goroutines w; klog := klog w |}
              None
        | S _ =>
            StopParked
              {| mgr := {| node := node m; scrapeInterval := scrapeInterval m;
                           podEphemeralStorageStats := podEphemeralStorageStats m;
                           wg := wg m; stopCh := ChClosed; lock := true;
                           running := running m |};
                 heap := heap w; goroutines := goroutines w; klog := klog w |}
        end
    | ChNil | ChClosed => StopPanicked
    end.

(** A caller parked in [m.wg.Wait()] resumes when the counter is zero: the
    deferred [m.running = false] and [m.lock.Unlock()] run and [Stop] returns
    nil. *)
Definition Stop_resume (w : world) : option world :=
  let m := mgr w in
  if lock m then
    match wg m with
    | O =>
        Some {| mgr := {| node := node m; scrapeInterval := scrapeInterval m;
                          podEphemeralStorageStats := podEphemeralStorageStats m;
                          wg := wg m; stopCh := stopCh m; lock := false;
                          running := false |};
                heap := heap w; goroutines := goroutines w; klog := klog w |}
    | S _ => None
    end
  else None.

(** The loop of [RecentStats]: [ret = append(ret, *stat)]. *)
Fixpoint RecentStats_loop (h : store) (stats : list loc)
    (ret : list podEphemeralStorageStat) : option (list podEphemeralStorageStat) :=
  match stats with
  | [] => Some ret
  | stat :: rest =>
      match recHeap h !! stat with
      | Some r => RecentStats_loop h rest (ret ++ [r])
      | None => None
      end
  end.

(** [RecentStats] returns a slice: the location of the array [append] grew for
    [ret] (an empty snapshot returns the nil slice, modelled as an empty
    array).  [None] stands for the dereference of a dangling pointer, which
    no reachable state has. *)
Definition RecentStats (w : world) : option (loc * world) :=
  match RecentStats_loop (heap w) (podEphemeralStorageStats (mgr w)) [] with
  | Some ret =>
      let '(s, h) := alloc_slice ret (heap w) in
      Some (s, {| mgr := mgr w; heap := h; goroutines := goroutines w; klog := klog w |})
  | None => None
  end.

(** The records a slice holds. *)
Definition slice_contents (w : world) (s : loc) : option (list podEphemeralStorageStat) :=
  sliceHeap (heap w) !! s.

(** ** What a reader of the store sees *)

(** A record with the target of its embedded pointer. *)
Record podView := {
  vNodeName : string;
  vPodName : string;
  vNamespace : string;
  vStats : option stats.FsStats;
}.

Definition deref_fs (h : store) (p : option loc) : option stats.FsStats :=
  match p with
  | Some l => fsHeap h !! l
  | None => None
  end.

(** [None] for a record whose pointer dangles. *)
Definition view_rec (h : store) (r : podEphemeralStorageStat) : option podView :=
  match FsStats r with
  | None =>
      Some {| vNodeName := nodeName r; vPodName := podName r;
              vNamespace := namespace r; vStats := None |}
  | Some l =>
      match fsHeap h !! l with
      | Some fs =>
          Some {| vNodeName := nodeName r; vPodName := podName r;
                  vNamespace := namespace r; vStats := Some fs |}
      | None => None
      end
  end.

Definition view_ptr (h : store) (p : loc) : option podView :=
  match recHeap h !! p with
  | Some r => view_rec h r
  | None => None
  end.

(** The stored snapshot as a sequence of values. *)
Definition snapshot_view (w : world) : option (list podView) :=
  mapM (view_ptr (heap w)) (podEphemeralStorageStats (mgr w)).

(** The projection of one decoded pod entry. *)
Definition project (nodeName : string) (podStat : stats.PodStats) : podView :=
  {| vNodeName := nodeName;
     vPodName := stats.Name (stats.PodRef podStat);
     vNamespace := stats.Namespace (stats.PodRef podStat);
     vStats := stats.EphemeralStorage podStat |}.

(** ** The interleaving of callers and the polling goroutine *)

Inductive action :=
| CallStart
| CallStop
| CallRecentStats
| Tick (i : nat) (c : select_case) (inp : cycle_input)
| StopResumes.

Inductive step_result :=
| Stepped (w : world)
| Disabled
| Crashed.

Definition set_goroutines (w : world) (gs : list goroutine) : world :=
  {| mgr := mgr w; heap := heap w; goroutines := gs; klog := klog w |}.

Section Schedule.

Variable json_Unmarshal : string -> option stats.Summary.

(** A caller of [Start] or [Stop] cannot enter while [m.lock] is held; the
    goroutine [i] takes a turn through a ready arm of its [select]. *)
Definition step (a : action) (w : world) : step_result :=
  match a with
  | CallStart =>
      if lock (mgr w) then Disabled else Stepped (fst (Start w))
  | CallStop =>
      if lock (mgr w) then Disabled
      else match Stop w with
           | StopReturned w' _ => Stepped w'
           | StopParked w' => Stepped w'
           | StopPanicked => Crashed
           end
  | CallRecentStats =>
      match RecentStats w with
      | Some (_, w') => Stepped w'
      | None => Crashed
      end
  | Tick i c inp =>
      match goroutines w !! i with
      | None => Disabled
      | Some _ =>
          if select_ready (mgr w) c then
            match loop_iteration json_Unmarshal c inp w with
            | Looped w' g' => Stepped (set_goroutines w' (<[i:=g']> (goroutines w')))
            | Exited w' => Stepped (set_goroutines w' (delete i (goroutines w')))
            | Panicked => Crashed
            end
          else Disabled
      end
  | StopResumes =>
      match Stop_resume w with
      | Some w' => Stepped w'
      | None => Disabled
      end
  end.

(** A schedule; a disabled action leaves the state as it is, a crash ends
    the process. *)
Fixpoint run (acts : list action) (w : world) : option world :=
  match acts with
  | [] => Some w
  | a :: rest =>
      match step a w with
      | Stepped w' => run rest w'
      | Disabled => run rest w
      | Crashed => None
      end
  end.

Definition reachable (w : world) : Prop :=
  exists currentNode interval acts,
    run acts (NewManager currentNode interval) = Some w.

End Schedule.

(** ** The collector *)

Module vars.
Definition namespace : string := "ephemeral_storage".
End vars.

Inductive ValueType := CounterValue | GaugeValue | UntypedValue.

Record Desc := {
  fqName : string;
  descHelp : string;
  variableLabels : list string;
}.

(** A sample sent on the channel of [Collect]. *)
Record Metric := {
  desc_of : Desc;
  metricType : ValueType;
  value : Z;
  labelValues : list string;
}.

(** [getValue] receives the pointer and the store; [None] is the panic of a
    nil dereference. *)
Record ephemeralStorageMetric := {
  name : string;
  help : string;
  extraLabels : list string;
  valueType : ValueType;
  getValue : store -> option loc -> option Z;
}.

Definition desc (m : ephemeralStorageMetric) (baseLabels : list string) : Desc :=
  {| fqName := name m; descHelp := help m;
     variableLabels := baseLabels ++ extraLabels m |}.

(** The gauge [errors] is its current value. *)
Record ephemeralStorageCollector := {
  errors : Z;
  metrics : list ephemeralStorageMetric;
}.

Definition errors_desc : Desc :=
  {| fqName := vars.namespace +:+ "_" +:+ "scrape_error";
     descHelp := "1 if there was an error while getting container metrics, 0 otherwise";
     variableLabels := [] |}.

Definition newEphemeralStorageCollector : ephemeralStorageCollector :=
  {| errors := 0;
     metrics :=
       [ {| name := "ephemeral_storage_pod_used_bytes";
            help := "Used bytes to expose Ephemeral Storage metrics for pod";
            extraLabels := [];
            valueType := GaugeValue;
            getValue := fun h stats =>
              match deref_fs h stats with
              | Some fs => stats.UsedBytes fs
              | None => None
              end |};
         {| name := "ephemeral_storage_pod_available_bytes";
            help := "Available bytes of ephemeral storage";
            extraLabels := [];
            valueType := GaugeValue;
            getValue := fun h stats =>
              match deref_fs h stats with
              | Some fs => stats.AvailableBytes fs
              | None => None
              end |};
         {| name := "ephemeral_storage_pod_capacity_bytes";
            help := "Capacity bytes of pod ephemeral storage";
            extraLabels := [];
            valueType := GaugeValue;
            getValue := fun h stats =>
              match deref_fs h stats with
              | Some fs => stats.CapacityBytes fs
              | None => None
              end |} ] |}.

(** Code that sends on [ch] and may panic: the samples sent so far and the
    result, [None] after a panic. *)
Definition emitter (A : Type) : Type := list Metric * option A.

Definition eret {A} (a : A) : emitter A := ([], Some a).

Definition ebind {A B} (x : emitter A) (k : A -> emitter B) : emitter B :=
  match x with
  | (out, Some a) => let '(out', r) := k a in (out ++ out', r)
  | (out, None) => (out, None)
  end.

Definition send (m : Metric) : emitter unit := ([m], Some tt).

Definition panic {A} : emitter A := ([], None).

Notation "x <-- c1 ;; c2" := (ebind c1 (fun x => c2))
  (at level 100, c1 at next level, right associativity).

Fixpoint for_each {A} (f : A -> emitter unit) (l : list A) : emitter unit :=
  match l with
  | [] => eret tt
  | x :: rest => _ <-- f x ;; for_each f rest
  end.

(** [prometheus.MustNewConstMetric] panics when the label values do not match
    the descriptor's labels in number. *)
Definition MustNewConstMetric (d : Desc) (vt : ValueType) (v : Z)
    (lvs : list string) : emitter Metric :=
  if Nat.eqb (length lvs) (length (variableLabels d))
  then eret {| desc_of := d; metricType := vt; value := v; labelValues := lvs |}
  else panic.

(** Lines 223-228 on the records [RecentStats] returned. *)
Definition collectEphemeralStorageInfo (c : ephemeralStorageCollector) (h : store)
    (podEphemeralStorageStats : list podEphemeralStorageStat) : emitter unit :=
  for_each (fun metric =>
    let d := desc metric ["node_name"; "namespace_name"; "pod_name"] in
    for_each (fun stat =>
      v <-- match getValue metric h (FsStats stat) with
            | Some v => eret v
            | None => panic
            end ;;
      m <-- MustNewConstMetric d (valueType metric) v
              [nodeName stat; namespace stat; podName stat] ;;
      send m) podEphemeralStorageStats) (metrics c).

(** [Collect]: the samples sent and, unless it panicked, the collector and the
    world after the call. *)
Definition Collect (c : ephemeralStorageCollector) (w : world)
    : emitter (ephemeralStorageCollector * world) :=
  let c0 := {| errors := 0; metrics := metrics c |} in
  match RecentStats w with
  | None => panic
  | Some (s, w') =>
      match slice_contents w' s with
      | None => panic
      | Some records =>
          _ <-- collectEphemeralStorageInfo c0 (heap w') records ;;
          _ <-- send {| desc_of := errors_desc; metricType := GaugeValue;
                        value := errors c0; labelValues := [] |} ;;
          eret (c0, w')
      end
  end.

(** ** The timer of the Go runtime *)

(** [timer.Reset(d)] re-arms the timer to fire [d] from now; the runtime
    treats a duration that is not positive as one that has already passed.
    [effective_wait d] is the time until the timer fires. *)
Definition effective_wait (d : Z) : Z :=
  if d <=? 0 then 0 else d.

(** ** What a caller can do with the slice [RecentStats] returned *)

Inductive mutation :=
| SetElem (i : nat) (r : podEphemeralStorageStat)
| SetNodeName (i : nat) (v : string)
| SetPodName (i : nat) (v : string)
| SetNamespace (i : nat) (v : string)
| WriteFsStats (i : nat) (fs : stats.FsStats).

(** [WriteFsStats] is [*ret[i].FsStats = fs]: a write through the embedded
    pointer.  The others assign an element of the slice or one of its named
    fields. *)
Definition through_pointer (mu : mutation) : bool :=
  match mu with
  | WriteFsStats _ _ => true
  | _ => false
  end.

Definition set_slice (h : store) (s : loc) (arr : list podEphemeralStorageStat) : store :=
  {| recHeap := recHeap h; fsHeap := fsHeap h; sliceHeap := <[s:=arr]> (sliceHeap h) |}.

(** [None]: index out of range or nil dereference, a panic of the caller. *)
Definition apply_mutation (s : loc) (mu : mutation) (h : store) : option store :=
  match sliceHeap h !! s with
  | None => None
  | Some arr =>
      match mu with
      | SetElem i r =>
          match arr !! i with
          | Some _ => Some (set_slice h s (<[i:=r]> arr))
          | None => None
          end
      | SetNodeName i v =>
          match arr !! i with
          | Some r =>
              Some (set_slice h s
                      (<[i:={| nodeName := v; podName := podName r;
                               namespace := namespace r; FsStats := FsStats r |}]> arr))
          | None => None
          end
      | SetPodName i v =>
          match arr !! i with
          | Some r =>
              Some (set_slice h s
                      (<[i:={| nodeName := nodeName r; podName := v;
                               namespace := namespace r; FsStats := FsStats r |}]> arr))
          | None => None
          end
      | SetNamespace i v =>
          match arr !! i with
          | Some r =>
              Some (set_slice h s
                      (<[i:={| nodeName := nodeName r; podName := podName r;
                               namespace := v; FsStats := FsStats r |}]> arr))
          | None => None
          end
      | WriteFsStats i fs =>
          match arr !! i with
          | Some r =>
              match FsStats r with
              | Some l =>
                  match fsHeap h !! l with
                  | Some _ =>
                      Some {| recHeap := recHeap h; fsHeap := <[l:=fs]> (fsHeap h);
                              sliceHeap := sliceHeap h |}
                  | None => None
                  end
              | None => None
              end
          | None => None
          end
      end
  end.

(** A caller's use of the manager: a read, or a mutation of a slice. *)
Inductive client_op :=
| Read
| Mutate (s : loc) (mu : mutation).

Definition shallow_op (op : client_op) : bool :=
  match op with
  | Read => true
  | Mutate _ mu => negb (through_pointer mu)
  end.

Definition set_heap (w : world) (h : store) : world :=
  {| mgr := mgr w; heap := h; goroutines := goroutines w; klog := klog w |}.

Fixpoint run_client (ops : list client_op) (w : world) : option world :=
  match ops with
  | [] => Some w
  | Read :: rest =>
      match RecentStats w with
      | Some (_, w') => run_client rest w'
      | None => None
      end
  | Mutate s mu :: rest =>
      match apply_mutation s mu (heap w) with
      | Some h => run_client rest (set_heap w h)
      | None => None
      end
  end.

(** ** Well-formed states: no pointer dangles *)

Definition wf_rec (h : store) (r : podEphemeralStorageStat) : Prop :=
  match FsStats r with
  | Some l => (l < length (fsHeap h))%nat
  | None => True
  end.

Definition wf (w : world) : Prop :=
  Forall (fun p => (p < length (recHeap (heap w)))%nat) (podEphemeralStorageStats (mgr w))
  /\ Forall (wf_rec (heap w)) (recHeap (heap w)).

(** Allocation only appends to the heaps of records and of stats objects. *)
Definition store_extends (h h' : store) : Prop :=
  recHeap h `prefix_of` recHeap h' /\ fsHeap h `prefix_of` fsHeap h'.

(** The liveness bookkeeping of the manager. *)
Definition consistent (w : world) : Prop :=
  wg (mgr w) = length (goroutines w)
  /\ (length (goroutines w) <= 1)%nat
  /\ (running (mgr w) = true <-> length (goroutines w) = 1%nat)
  /\ (lock (mgr w) = true -> running (mgr w) = true /\ stopCh (mgr w) = ChClosed)
  /\ (running (mgr w) = true -> lock (mgr w) = false -> stopCh (mgr w) = ChOpen).

(** A caller parked in [m.wg.Wait()] with the loop alive. *)
Definition parked (w : world) : Prop :=
  lock (mgr w) = true /\ running (mgr w) = true /\ stopCh (mgr w) = ChClosed
  /\ wg (mgr w) = 1%nat /\ length (goroutines w) = 1%nat.

(** ** Payloads of the examples

    The examples name each payload rather than spell out its JSON text;
    [sample_Unmarshal] is the decoder restricted to them. *)

Definition fs_complete : stats.FsStats :=
  {| stats.AvailableBytes := Some 200; stats.CapacityBytes := Some 300;
     stats.UsedBytes := Some 100 |}.

Definition fs_no_available : stats.FsStats :=
  {| stats.AvailableBytes := None; stats.CapacityBytes := Some 300;
     stats.UsedBytes := Some 50 |}.

Definition pod_a : stats.PodStats :=
  {| stats.PodRef := {| stats.Name := "pod-a"; stats.Namespace := "default" |};
     stats.EphemeralStorage := Some fs_complete |}.

Definition pod_b : stats.PodStats :=
  {| stats.PodRef := {| stats.Name := "pod-b"; stats.Namespace := "default" |};
     stats.EphemeralStorage := Some fs_no_available |}.

(** A pod that was just created: no [ephemeral-storage] yet. *)
Definition pod_new : stats.PodStats :=
  {| stats.PodRef := {| stats.Name := "pod-new"; stats.Namespace := "default" |};
     stats.EphemeralStorage := None |}.

(** An entry without [podRef]. *)
Definition pod_anonymous : stats.PodStats :=
  {| stats.PodRef := {| stats.Name := ""; stats.Namespace := "" |};
     stats.EphemeralStorage := Some fs_complete |}.

Definition summary_of (pods : list stats.PodStats) : stats.Summary :=
  {| stats.Node := {| stats.NodeName := "node-1" |}; stats.Pods := pods |}.

Definition sample_Unmarshal (content : string) : option stats.Summary :=
  if String.eqb content "null" then None
  else if String.eqb content "summary: pod-a" then Some (summary_of [pod_a])
  else if String.eqb content "summary: pod-a, pod-b" then Some (summary_of [pod_a; pod_b])
  else if String.eqb content "summary: pod-new, no podRef"
       then Some (summary_of [pod_new; pod_anonymous])
  else Some stats.zero_Summary.

Definition second : Z := 1000000000.

(** A manager started for node-1 with the default interval of 15 s. *)
Definition started : world :=
  fst (Start (NewManager (Some "node-1") (15 * second))).

Definition fetched (content : string) (elapsed : Z) : cycle_input :=
  {| content := content; err := None; elapsed := elapsed |}.

(** A failed request: [DoRaw] returns no content and an error. *)
Definition fetch_failed (e : string) (elapsed : Z) : cycle_input :=
  {| content := ""; err := Some e; elapsed := elapsed |}.

(** The started manager after one cycle that fetched [content]. *)
Definition polled (content : string) : world :=
  match poll_cycle sample_Unmarshal (fetched content second) started with
  | Looped w _ => w
  | _ => started
  end.

(** The claim about incomplete entries, in the words of the specification:
    an entry lacks its pod reference or its stats sub-structure. *)
Definition lacks_fields (podStat : stats.PodStats) : bool :=
  (String.eqb (stats.Name (stats.PodRef podStat)) ""
   && String.eqb (stats.Namespace (stats.PodRef podStat)) "")
  || match stats.EphemeralStorage podStat with None => true | Some _ => false end.

(** The state after [Start] and one turn of the loop that fetched [content]. *)
Definition after_first_poll (content : string) : world :=
  default started
    (run sample_Unmarshal
       [CallStart; Tick 0 RecvTimer (fetched content second)]
       (NewManager (Some "node-1") (15 * second))).

(** A reader's state: after the first poll fetched pod-a, one call of
    [RecentStats]; and the state three steps later. *)
Definition reader_state : world :=
  Eval vm_compute in
    match RecentStats (polled "summary: pod-a") with
    | Some (_, w1) => w1
    | None => started
    end.

Definition later_schedule : list action :=
  [Tick 0 RecvTimer (fetch_failed "connection refused" second);
   CallRecentStats;
   Tick 0 RecvTimer (fetched "summary: pod-a, pod-b" second)].

Definition reader_state_later : world :=
  Eval vm_compute in default started (run sample_Unmarshal later_schedule reader_state).

(** ** Describe *)

(** [Describe]: the descriptor of the gauge, then one per metric, built with
    no base labels. *)
Definition Describe (c : ephemeralStorageCollector) : list Desc :=
  errors_desc :: map (fun cm => desc cm []) (metrics c).

(** The collector of the program with its gauge at [e]. *)
Definition collector_with (e : Z) : ephemeralStorageCollector :=
  {| errors := e; metrics := metrics newEphemeralStorageCollector |}.

(** The body of the inner loop of [collectEphemeralStorageInfo] (line 226):
    extract, build the sample, send it. *)
Definition send_sample (metric : ephemeralStorageMetric) (d : Desc) (h : store)
    (stat : podEphemeralStorageStat) : emitter unit :=
  v <-- match getValue metric h (FsStats stat) with
        | Some v => eret v
        | None => panic
        end ;;
  m <-- MustNewConstMetric d (valueType metric) v
          [nodeName stat; namespace stat; podName stat] ;;
  send m.

(** ** Records with every byte field present *)

Record completeStat := {
  cNodeName : string;
  cPodName : string;
  cNamespace : string;
  cUsed : Z;
  cAvailable : Z;
  cCapacity : Z;
}.

Definition complete_view (c : completeStat) : podView :=
  {| vNodeName := cNodeName c; vPodName := cPodName c; vNamespace := cNamespace c;
     vStats := Some {| stats.AvailableBytes := Some (cAvailable c);
                       stats.CapacityBytes := Some (cCapacity c);
                       stats.UsedBytes := Some (cUsed c) |} |}.

(** A view has all three byte counts. *)
Definition has_all_bytes (v : podView) : bool :=
  match vStats v with
  | Some fs =>
      match stats.UsedBytes fs, stats.AvailableBytes fs, stats.CapacityBytes fs with
      | Some _, Some _, Some _ => true
      | _, _, _ => false
      end
  | None => false
  end.

(** The sample of one storage metric for one pod. *)
Definition storage_sample (metric_name metric_help : string) (v : Z)
    (node_name ns pod : string) : Metric :=
  {| desc_of := {| fqName := metric_name; descHelp := metric_help;
                   variableLabels := ["node_name"; "namespace_name"; "pod_name"] |};
     metricType := GaugeValue;
     value := v;
     labelValues := [node_name; ns; pod] |}.

Definition error_gauge_sample : Metric :=
  {| desc_of := errors_desc; metricType := GaugeValue; value := 0; labelValues := [] |}.

(** What a scrape of complete records is expected to send: the used-bytes
    samples of all pods, then the available-bytes ones, then the capacity
    ones, then the error gauge. *)
Definition expected_samples (cs : list completeStat) : list Metric :=
  map (fun c => storage_sample "ephemeral_storage_pod_used_bytes"
                  "Used bytes to expose Ephemeral Storage metrics for pod"
                  (cUsed c) (cNodeName c) (cNamespace c) (cPodName c)) cs
  ++ map (fun c => storage_sample "ephemeral_storage_pod_available_bytes"
                     "Available bytes of ephemeral storage"
                     (cAvailable c) (cNodeName c) (cNamespace c) (cPodName c)) cs
  ++ map (fun c => storage_sample "ephemeral_storage_pod_capacity_bytes"
                     "Capacity bytes of pod ephemeral storage"
                     (cCapacity c) (cNodeName c) (cNamespace c) (cPodName c)) cs
  ++ [error_gauge_sample].

(** ** Schedules *)

Definition is_tick (a : action) : bool :=
  match a with
  | Tick _ _ _ => true
  | _ => false
  end.

(** ** main.go: the scrape interval *)

Definition is_digit (c : ascii) : bool :=
  (48 <=? Z.of_nat (nat_of_ascii c)) && (Z.of_nat (nat_of_ascii c) <=? 57).

Definition digit_value (c : ascii) : Z := Z.of_nat (nat_of_ascii c) - 48.

(** The digits of [strconv.ParseUint] in base 10: any other character is a
    syntax error. *)
Fixpoint parse_digits (s : string) (acc : Z) : option Z :=
  match s with
  | EmptyString => Some acc
  | String c rest =>
      if is_digit c then parse_digits rest (acc * 10 + digit_value c) else None
  end.

(** [strconv.ParseInt(str, 10, 64)]: the number, or [None] for a syntax or a
    range error.  An optional sign, then at least one digit; the value must
    fit an [int64]. *)
Definition ParseInt (str : string) : option Z :=
  match str with
  | EmptyString => None
  | String c rest =>
      let '(neg, digits) :=
        if Ascii.eqb c "+"%char then (false, rest)
        else if Ascii.eqb c "-"%char then (true, rest)
        else (false, str) in
      match digits with
      | EmptyString => None
      | _ =>
          match parse_digits digits 0 with
          | None => None
          | Some un =>
              if neg
              then (if un <=? 2 ^ 63 then Some (- un) else None)
              else (if un <? 2 ^ 63 then Some un else None)
          end
      end
  end.

(** [int64FromEnv]; [environ] is [os.LookupEnv]. *)
Definition int64FromEnv (environ : string -> option string) (env : string)
    (defaultValue : Z) : Z :=
  match environ env with
  | None => defaultValue
  | Some str =>
      match ParseInt str with
      | Some num => num
      | None => defaultValue
      end
  end.

(** [time.Duration(scrapeIntervalSecond) * time.Second], an [int64] product
    (main.go line 55). *)
Definition interval_of_seconds (scrapeIntervalSecond : Z) : Z :=
  wrap64 (scrapeIntervalSecond * second).

(** The decimal rendering of an integer. *)
Definition decimal (n : Z) : string :=
  DecimalString.NilZero.string_of_int (Z.to_int n).

(** * Properties *)

(** ** The store only grows *)

Lemma store_extends_refl h : store_extends h h.
Proof. split; reflexivity. Qed.

Lemma store_extends_trans h1 h2 h3 :
  store_extends h1 h2 -> store_extends h2 h3 -> store_extends h1 h3.
Proof. intros [? ?] [? ?]; split; etrans; eauto. Qed.

Lemma alloc_fs_extends o h p h' :
  alloc_fs o h = (p, h') ->
  store_extends h h' /\ sliceHeap h' = sliceHeap h /\ recHeap h' = recHeap h /\
  deref_fs h' p = o /\ (o = None -> p = None).
Proof.
  destruct o as [fs|]; simpl; intros [= <- <-]; simpl.
  - repeat split; try reflexivity; try done.
    + apply prefix_app_r; reflexivity.
    + apply list_lookup_middle; reflexivity.
  - repeat split; reflexivity.
Qed.

Lemma view_rec_extends h h' r v :
  store_extends h h' -> view_rec h r = Some v -> view_rec h' r = Some v.
Proof.
  intros [_ Hfs]; unfold view_rec.
  destruct (FsStats r) as [l|]; [|done].
  destruct (fsHeap h !! l) as [fs|] eqn:E; [|done].
  by rewrite (prefix_lookup_Some _ _ _ _ E Hfs).
Qed.

Lemma view_ptr_extends h h' p v :
  store_extends h h' -> view_ptr h p = Some v -> view_ptr h' p = Some v.
Proof.
  intros Hext; unfold view_ptr.
  destruct (recHeap h !! p) as [r|] eqn:E; [|done].
  destruct Hext as [Hrec Hfs].
  rewrite (prefix_lookup_Some _ _ _ _ E Hrec).
  apply view_rec_extends; by split.
Qed.

Lemma mapM_view_extends h h' ps vs :
  store_extends h h' ->
  mapM (view_ptr h) ps = Some vs -> mapM (view_ptr h') ps = Some vs.
Proof.
  intros Hext; rewrite !mapM_Some.
  intros HF; eapply Forall2_impl; [exact HF|].
  intros p v; by apply view_ptr_extends.
Qed.

(** ** The build loop *)

(** The records the loop appends, one per entry and in entry order, each with
    the names and the stats pointer of its entry. *)
Lemma build_snapshot_spec node_name pods : forall acc h acc' h',
  build_snapshot node_name pods acc h = (acc', h') ->
  store_extends h h' /\ sliceHeap h' = sliceHeap h /\
  exists new,
    acc' = acc ++ new /\
    length new = length pods /\
    Forall (fun p => (length (recHeap h) <= p < length (recHeap h'))%nat) new /\
    Forall2 (fun p podStat =>
               exists r, recHeap h' !! p = Some r /\
                         nodeName r = node_name /\
                         podName r = stats.Name (stats.PodRef podStat) /\
                         namespace r = stats.Namespace (stats.PodRef podStat) /\
                         deref_fs h' (FsStats r) = stats.EphemeralStorage podStat /\
                         (stats.EphemeralStorage podStat = None -> FsStats r = None))
            new pods.
Proof.
  induction pods as [|podStat rest IH]; intros acc h acc' h'; simpl.
  - intros [= <- <-]. split; [apply store_extends_refl|]. split; [done|].
    exists []. rewrite app_nil_r. repeat split; constructor.
  - destruct (alloc_fs (stats.EphemeralStorage podStat) h) as [fsp h1] eqn:Hfs.
    apply alloc_fs_extends in Hfs as (Hext1 & Hsl1 & Hrec1 & Hderef & Hnil).
    intros Hb. apply IH in Hb as (Hext2 & Hsl2 & new & -> & Hlen & Hrange & Hall).
    simpl in *.
    assert (Hext : store_extends h h').
    { eapply store_extends_trans; [exact Hext1|].
      eapply store_extends_trans; [|exact Hext2].
      split; simpl; [apply prefix_app_r|]; reflexivity. }
    split; [exact Hext|]. split; [congruence|].
    exists (length (recHeap h1) :: new).
    rewrite <- app_assoc. simpl.
    split; [done|]. split; [by rewrite Hlen|].
    destruct Hext2 as [Hp2 Hf2]; simpl in *.
    assert (Hlook : recHeap h' !! length (recHeap h1) =
              Some {| nodeName := node_name;
                      podName := stats.Name (stats.PodRef podStat);
                      namespace := stats.Namespace (stats.PodRef podStat);
                      FsStats := fsp |}).
    { eapply prefix_lookup_Some; [|exact Hp2].
      apply list_lookup_middle; reflexivity. }
    split.
    + constructor.
      * rewrite Hrec1. split; [lia|]. rewrite <- Hrec1.
        apply lookup_lt_Some in Hlook. exact Hlook.
      * eapply Forall_impl; [exact Hrange|]. simpl. intros p.
        rewrite length_app; simpl. rewrite Hrec1. lia.
    + constructor; [|exact Hall].
      eexists; split; [exact Hlook|]. simpl. repeat split.
      * destruct fsp as [l|]; simpl in *.
        -- destruct (fsHeap h1 !! l) eqn:E.
           ++ rewrite <- Hderef. eapply prefix_lookup_Some; [exact E|exact Hf2].
           ++ symmetry in Hderef. by specialize (Hnil Hderef).
        -- done.
      * exact Hnil.
Qed.

Lemma build_snapshot_view nodeName pods h acc' h' :
  build_snapshot nodeName pods [] h = (acc', h') ->
  mapM (view_ptr h') acc' = Some (map (project nodeName) pods)
  /\ length acc' = length pods.
Proof.
  intros Hb. apply build_snapshot_spec in Hb as (_ & _ & new & -> & Hlen & _ & Hall).
  simpl. split; [|exact Hlen].
  apply mapM_Some, Forall2_fmap_r.
  eapply Forall2_impl; [exact Hall|]. simpl.
  intros p podStat (r & Hlook & Hn & Hp & Hns & Hderef & Hnil).
  unfold view_ptr, view_rec, project. rewrite Hlook.
  destruct (FsStats r) as [l|] eqn:E; simpl in Hderef.
  - destruct (fsHeap h' !! l) eqn:El.
    + by rewrite <- Hn, Hp, Hns, Hderef.
    + symmetry in Hderef. by specialize (Hnil Hderef).
  - by rewrite <- Hn, Hp, Hns, Hderef.
Qed.

(** ** One poll cycle *)

Section Cycle.

Variable json_Unmarshal : string -> option stats.Summary.

(** A cycle whose content decodes goes round the loop: it publishes the
    snapshot built from the decoded payload, keeps the rest of the manager,
    logs, and re-arms the timer with [scrapeInterval - duration]. *)
Lemma poll_cycle_decoded inp w raw :
  json_Unmarshal (content inp) = Some raw ->
  exists w' g,
    poll_cycle json_Unmarshal inp w = Looped w' g
    /\ build_snapshot (stats.NodeName (stats.Node raw)) (stats.Pods raw) [] (heap w)
       = (podEphemeralStorageStats (mgr w'), heap w')
    /\ mgr w' = set_snapshot (mgr w) (podEphemeralStorageStats (mgr w'))
    /\ goroutines w' = goroutines w
    /\ klog w' = klog w
                 ++ (match err inp with Some e => [LogError e] | None => [] end
                     ++ [LogInfoV 4 ("Fetched proxy stats from node : %s" +:+ node (mgr w))])
                 ++ [LogInfoV 3 "Taking time to get node stat summary"]
    /\ timer g = wrap64 (scrapeInterval (mgr w) - elapsed inp).
Proof.
  intros Hdec. unfold poll_cycle. rewrite Hdec.
  destruct (build_snapshot _ _ _ _) as [snap h] eqn:Hb.
  eexists _, _. split; [reflexivity|]. simpl. repeat split.
Qed.

Lemma poll_cycle_view inp w raw w' g :
  json_Unmarshal (content inp) = Some raw ->
  poll_cycle json_Unmarshal inp w = Looped w' g ->
  snapshot_view w'
  = Some (map (project (stats.NodeName (stats.Node raw))) (stats.Pods raw))
  /\ length (podEphemeralStorageStats (mgr w')) = length (stats.Pods raw).
Proof.
  intros Hdec Hc.
  destruct (poll_cycle_decoded inp w raw Hdec) as (w1 & g1 & Hc1 & Hb & _).
  rewrite Hc in Hc1. injection Hc1 as <- <-.
  unfold snapshot_view. by apply build_snapshot_view in Hb.
Qed.

(** The loop has no way out: whatever arm the [select] takes, the
    iteration ends at the top of the loop or in a panic. *)
Lemma loop_iteration_never_exits c inp w w' :
  loop_iteration json_Unmarshal c inp w <> Exited w'.
Proof.
  unfold loop_iteration, poll_cycle.
  destruct c; simpl;
    (destruct (json_Unmarshal (content inp)); [|done];
     by destruct (build_snapshot _ _ _ _)).
Qed.

Lemma loop_iteration_Looped c inp w w' g :
  loop_iteration json_Unmarshal c inp w = Looped w' g ->
  exists snap,
    mgr w' = set_snapshot (mgr w) snap /\ goroutines w' = goroutines w.
Proof.
  unfold loop_iteration, poll_cycle.
  destruct c; simpl;
    (destruct (json_Unmarshal (content inp)); [|done];
     destruct (build_snapshot _ _ _ _) as [snap h];
     intros [= <- <-]; by exists snap).
Qed.

End Cycle.

(** ** The snapshot a cycle publishes *)

(** C9. For every decoded payload, the snapshot published by the cycle holds
    exactly one record per pod entry, in payload order, the entries without
    [ephemeral-storage] included (their record carries no stats): the snapshot
    is the entry-wise projection of the payload and has as many records as the
    payload has pods. *)
Theorem snapshot_has_one_record_per_entry
    (json_Unmarshal : string -> option stats.Summary) inp w raw :
  json_Unmarshal (content inp) = Some raw ->
  exists w' g,
    poll_cycle json_Unmarshal inp w = Looped w' g
    /\ snapshot_view w'
       = Some (map (project (stats.NodeName (stats.Node raw))) (stats.Pods raw))
    /\ length (podEphemeralStorageStats (mgr w')) = length (stats.Pods raw).
Proof.
  intros Hdec.
  destruct (poll_cycle_decoded json_Unmarshal inp w raw Hdec) as (w' & g & Hc & _).
  exists w', g. split; [exact Hc|].
  exact (poll_cycle_view json_Unmarshal inp w raw w' g Hdec Hc).
Qed.

Lemma snapshot_has_one_record_per_entry_witness :
  sample_Unmarshal (content (fetched "summary: pod-new, no podRef" second))
  = Some (summary_of [pod_new; pod_anonymous])
  /\ exists w' g,
       poll_cycle sample_Unmarshal (fetched "summary: pod-new, no podRef" second) started
       = Looped w' g
       /\ snapshot_view w'
          = Some (map (project "node-1") [pod_new; pod_anonymous])
       /\ length (podEphemeralStorageStats (mgr w')) = 2%nat.
Proof.
  split; [reflexivity|].
  apply (snapshot_has_one_record_per_entry sample_Unmarshal
           (fetched "summary: pod-new, no podRef" second) started
           (summary_of [pod_new; pod_anonymous])).
  reflexivity.
Defined.

(** C4, as the specification words it, fails: a payload whose two entries lack
    the stats sub-structure and the pod reference yields a snapshot with both
    of them, not the empty one that dropping them would give. *)
Lemma incomplete_entries_are_not_dropped :
  exists w' g,
    poll_cycle sample_Unmarshal (fetched "summary: pod-new, no podRef" second) started
    = Looped w' g
    /\ snapshot_view w' = Some [project "node-1" pod_new; project "node-1" pod_anonymous]
    /\ List.filter (fun p => negb (lacks_fields p)) [pod_new; pod_anonymous] = []
    /\ snapshot_view w'
       <> Some (map (project "node-1")
                  (List.filter (fun p => negb (lacks_fields p)) [pod_new; pod_anonymous])).
Proof.
  eexists _, _. split; [reflexivity|].
  split; [reflexivity|]. split; [reflexivity|]. discriminate.
Qed.

(** C4, amended. For every decoded payload, each pod entry, also one that
    lacks its pod reference or its stats sub-structure, is kept: the cycle
    completes and the snapshot holds at the entry's position a record with the
    entry's names (empty when the reference is missing) and the entry's stats
    pointer (nil when the sub-structure is missing). *)
Theorem incomplete_entry_is_kept
    (json_Unmarshal : string -> option stats.Summary) inp w raw i podStat :
  json_Unmarshal (content inp) = Some raw ->
  stats.Pods raw !! i = Some podStat ->
  exists w' g p r,
    poll_cycle json_Unmarshal inp w = Looped w' g
    /\ podEphemeralStorageStats (mgr w') !! i = Some p
    /\ recHeap (heap w') !! p = Some r
    /\ nodeName r = stats.NodeName (stats.Node raw)
    /\ podName r = stats.Name (stats.PodRef podStat)
    /\ namespace r = stats.Namespace (stats.PodRef podStat)
    /\ deref_fs (heap w') (FsStats r) = stats.EphemeralStorage podStat
    /\ (stats.EphemeralStorage podStat = None -> FsStats r = None).
Proof.
  intros Hdec Hi.
  destruct (poll_cycle_decoded json_Unmarshal inp w raw Hdec)
    as (w' & g & Hc & Hb & _).
  apply build_snapshot_spec in Hb as (_ & _ & new & Hnew & _ & _ & Hall).
  simpl in Hnew.
  destruct (Forall2_lookup_r _ _ _ _ _ Hall Hi)
    as (p & Hp & r & Hr & Hn & Hpod & Hns & Hderef & Hnil).
  exists w', g, p, r. rewrite Hnew. repeat split; try done.
Qed.

Lemma incomplete_entry_is_kept_witness :
  exists w' g p r,
    poll_cycle sample_Unmarshal (fetched "summary: pod-new, no podRef" second) started
    = Looped w' g
    /\ podEphemeralStorageStats (mgr w') !! 0%nat = Some p
    /\ recHeap (heap w') !! p = Some r
    /\ nodeName r = "node-1"
    /\ podName r = "pod-new"
    /\ namespace r = "default"
    /\ deref_fs (heap w') (FsStats r) = None
    /\ (stats.EphemeralStorage pod_new = None -> FsStats r = None).
Proof.
  apply (incomplete_entry_is_kept sample_Unmarshal
           (fetched "summary: pod-new, no podRef" second) started
           (summary_of [pod_new; pod_anonymous]) 0%nat pod_new);
    reflexivity.
Defined.

(** ** A cycle whose fetch failed *)

(** C2, as stated, fails: after a successful first cycle and a second cycle
    whose fetch returns an error, the stored snapshot is empty, not the
    snapshot of the first cycle. *)
Lemma fetch_error_replaces_the_snapshot :
  exists w1 w2,
    run sample_Unmarshal
      [CallStart; Tick 0 RecvTimer (fetched "summary: pod-a" second)]
      (NewManager (Some "node-1") (15 * second)) = Some w1
    /\ run sample_Unmarshal
         [Tick 0 RecvTimer (fetch_failed "connection refused" second)] w1 = Some w2
    /\ snapshot_view w1 = Some [project "node-1" pod_a]
    /\ snapshot_view w2 = Some []
    /\ snapshot_view w2 <> snapshot_view w1.
Proof.
  eexists _, _. split; [reflexivity|]. split; [reflexivity|].
  split; [reflexivity|]. split; [reflexivity|]. discriminate.
Qed.

(** C2, amended. For every poll cycle in which the fetch returns an error,
    the error is logged and the cycle goes on as any other: it decodes the
    content the fetch returned and replaces the stored snapshot with the
    records built from it, exactly as the same content would without the
    error; a content that decodes to no pods leaves the snapshot empty. *)
Theorem fetch_error_cycle_publishes_decoded_content
    (json_Unmarshal : string -> option stats.Summary) inp w e raw :
  err inp = Some e ->
  json_Unmarshal (content inp) = Some raw ->
  exists w' g,
    poll_cycle json_Unmarshal inp w = Looped w' g
    /\ LogError e ∈ klog w'
    /\ snapshot_view w'
       = Some (map (project (stats.NodeName (stats.Node raw))) (stats.Pods raw))
    /\ (stats.Pods raw = [] -> podEphemeralStorageStats (mgr w') = [])
    /\ exists w0,
         poll_cycle json_Unmarshal
           {| content := content inp; err := None; elapsed := elapsed inp |} w
         = Looped w0 g
         /\ mgr w0 = mgr w' /\ heap w0 = heap w'.
Proof.
  intros He Hdec.
  destruct (poll_cycle_decoded json_Unmarshal inp w raw Hdec)
    as (w' & g & Hc & Hb & Hm & Hg & Hlog & Ht).
  exists w', g. split; [exact Hc|].
  destruct (poll_cycle_view json_Unmarshal inp w raw w' g Hdec Hc) as [Hview Hlen].
  split.
  { rewrite Hlog, He, !elem_of_app, list_elem_of_singleton. tauto. }
  split; [exact Hview|].
  split.
  { intros Hnil. rewrite Hnil in Hlen. by apply nil_length_inv. }
  revert Hc. unfold poll_cycle; simpl. rewrite Hdec.
  destruct (build_snapshot _ _ _ _) as [snap h].
  intros [= <- <-]. eexists. split; [reflexivity|]. by split.
Qed.

Lemma fetch_error_cycle_publishes_decoded_content_witness :
  exists w' g,
    poll_cycle sample_Unmarshal (fetch_failed "connection refused" second) started
    = Looped w' g
    /\ LogError "connection refused" ∈ klog w'
    /\ snapshot_view w' = Some []
    /\ (stats.Pods stats.zero_Summary = [] -> podEphemeralStorageStats (mgr w') = [])
    /\ exists w0,
         poll_cycle sample_Unmarshal
           {| content := ""; err := None; elapsed := second |} started
         = Looped w0 g
         /\ mgr w0 = mgr w' /\ heap w0 = heap w'.
Proof.
  apply (fetch_error_cycle_publishes_decoded_content sample_Unmarshal
           (fetch_failed "connection refused" second) started
           "connection refused" stats.zero_Summary);
    reflexivity.
Defined.

(** ** The duration the loop re-arms its timer with *)

Lemma wrap64_in_range z : - 2 ^ 63 <= z < 2 ^ 63 -> wrap64 z = z.
Proof. intros Hz. unfold wrap64. rewrite Z.mod_small; lia. Qed.

(** C5, as stated, fails: with the interval of 15 s, a cycle that took 20 s
    re-arms the timer with -5 s; the loop computes a negative duration and
    does not clamp it. *)
Lemma slow_cycle_arms_a_negative_duration :
  exists w' g,
    poll_cycle sample_Unmarshal (fetched "summary: pod-a" (20 * second)) started
    = Looped w' g
    /\ timer g = -5 * second
    /\ ~ (0 <= timer g).
Proof.
  eexists _, _. split; [reflexivity|]. split; [reflexivity|].
  vm_compute. intros H. by apply H.
Qed.

(** C5, amended. For every poll cycle (interval and measured duration
    non-negative), the loop hands [timer.Reset] the difference
    [interval - duration] as it is, with no clamp of its own: the value is
    negative when the duration exceeds the interval and zero when they are
    equal.  The Go timer fires at once for a duration that is not positive,
    so the time the loop waits is non-negative, at most the interval, and
    zero whenever the duration is greater than or equal to the interval. *)
Theorem timer_reset_value_and_wait
    (json_Unmarshal : string -> option stats.Summary) inp w w' g :
  0 <= scrapeInterval (mgr w) < 2 ^ 63 ->
  0 <= elapsed inp < 2 ^ 63 ->
  poll_cycle json_Unmarshal inp w = Looped w' g ->
  timer g = scrapeInterval (mgr w) - elapsed inp
  /\ (scrapeInterval (mgr w) < elapsed inp -> timer g < 0)
  /\ 0 <= effective_wait (timer g) <= scrapeInterval (mgr w)
  /\ (scrapeInterval (mgr w) <= elapsed inp -> effective_wait (timer g) = 0).
Proof.
  intros Hi He Hc.
  assert (Ht : timer g = scrapeInterval (mgr w) - elapsed inp).
  { revert Hc. unfold poll_cycle.
    destruct (json_Unmarshal (content inp)); [|done].
    destruct (build_snapshot _ _ _ _). intros [= <- <-]. simpl.
    apply wrap64_in_range. lia. }
  rewrite Ht. unfold effective_wait.
  destruct (Z.leb_spec (scrapeInterval (mgr w) - elapsed inp) 0); lia.
Qed.

Lemma timer_reset_value_and_wait_witness :
  exists w' g,
    poll_cycle sample_Unmarshal (fetched "summary: pod-a" (20 * second)) started
    = Looped w' g
    /\ timer g = 15 * second - 20 * second
    /\ effective_wait (timer g) = 0.
Proof.
  eexists _, _. split; [reflexivity|].
  destruct (timer_reset_value_and_wait sample_Unmarshal
              (fetched "summary: pod-a" (20 * second)) started _ _
              ltac:(vm_compute; split; [discriminate|reflexivity])
              ltac:(vm_compute; split; [discriminate|reflexivity])
              eq_refl) as (Ht & _ & _ & Hz).
  split; [exact Ht|].
  apply Hz. vm_compute. discriminate.
Defined.

(** ** Stop on a manager that is not running *)

(** C7. For every (consistent) manager state in which the manager is not
    running, [Stop] can enter, returns nil and leaves the manager, the store
    and the goroutines as they were; its only effect is one warning in the
    log. *)
Theorem Stop_when_not_running_is_a_noop
    (json_Unmarshal : string -> option stats.Summary) w :
  consistent w ->
  running (mgr w) = false ->
  exists w',
    Stop w = StopReturned w' None
    /\ step json_Unmarshal CallStop w = Stepped w'
    /\ mgr w' = mgr w
    /\ heap w' = heap w
    /\ goroutines w' = goroutines w
    /\ klog w' = klog w ++ [LogWarning "metrics manager already stopped"].
Proof.
  intros (_ & _ & _ & Hlock & _) Hr.
  assert (Hl : lock (mgr w) = false).
  { destruct (lock (mgr w)); [|done]. destruct Hlock as [Hrun _]; [done|congruence]. }
  eexists. unfold step, Stop. rewrite Hl, Hr. simpl. repeat split.
Qed.

Lemma NewManager_consistent currentNode interval :
  consistent (NewManager currentNode interval).
Proof. unfold consistent; simpl. repeat split; try done; lia. Qed.

Lemma Stop_when_not_running_is_a_noop_witness :
  exists w',
    Stop (NewManager (Some "node-1") (15 * second)) = StopReturned w' None
    /\ step sample_Unmarshal CallStop (NewManager (Some "node-1") (15 * second))
       = Stepped w'
    /\ mgr w' = mgr (NewManager (Some "node-1") (15 * second))
    /\ heap w' = heap (NewManager (Some "node-1") (15 * second))
    /\ goroutines w' = goroutines (NewManager (Some "node-1") (15 * second))
    /\ klog w' = klog (NewManager (Some "node-1") (15 * second))
                 ++ [LogWarning "metrics manager already stopped"].
Proof.
  apply (Stop_when_not_running_is_a_noop sample_Unmarshal
           (NewManager (Some "node-1") (15 * second))).
  - apply NewManager_consistent.
  - reflexivity.
Defined.

(** ** Collect on a record with an absent field *)

(** With every byte field present, [Collect] sends one sample per metric and
    pod, then the error gauge with value 0, and returns. *)
Example Collect_on_a_complete_record :
  (exists c w', snd (Collect newEphemeralStorageCollector (polled "summary: pod-a"))
                = Some (c, w') /\ errors c = 0)
  /\ map (fun m => (fqName (desc_of m), labelValues m, value m))
       (fst (Collect newEphemeralStorageCollector (polled "summary: pod-a")))
     = [ ("ephemeral_storage_pod_used_bytes", ["node-1"; "default"; "pod-a"], 100);
         ("ephemeral_storage_pod_available_bytes", ["node-1"; "default"; "pod-a"], 200);
         ("ephemeral_storage_pod_capacity_bytes", ["node-1"; "default"; "pod-a"], 300);
         ("ephemeral_storage_scrape_error", [], 0) ].
Proof. split; [eexists _, _; split; reflexivity|reflexivity]. Qed.

(** A record whose whole stats pointer is nil stops [Collect] at the first
    extractor. *)
Example Collect_on_a_record_without_stats :
  Collect newEphemeralStorageCollector (polled "summary: pod-new, no podRef")
  = ([], None).
Proof. reflexivity. Qed.

(** C3, evaluated on the snapshot of the specification's example (pod-a
    complete, pod-b without [availableBytes]): [Collect] sends the two
    used-bytes samples and pod-a's available-bytes sample, then the extractor
    dereferences pod-b's nil [AvailableBytes] and panics; neither the
    capacity samples nor the error gauge are sent. *)
Theorem Collect_panics_on_an_absent_field :
  exists w,
    run sample_Unmarshal
      [CallStart; Tick 0 RecvTimer (fetched "summary: pod-a, pod-b" second)]
      (NewManager (Some "node-1") (15 * second)) = Some w
    /\ snapshot_view w = Some [project "node-1" pod_a; project "node-1" pod_b]
    /\ snd (Collect newEphemeralStorageCollector w) = None
    /\ map (fun m => (fqName (desc_of m), labelValues m, value m))
         (fst (Collect newEphemeralStorageCollector w))
       = [ ("ephemeral_storage_pod_used_bytes", ["node-1"; "default"; "pod-a"], 100);
           ("ephemeral_storage_pod_used_bytes", ["node-1"; "default"; "pod-b"], 50);
           ("ephemeral_storage_pod_available_bytes", ["node-1"; "default"; "pod-a"], 200) ].
Proof.
  eexists. split; [reflexivity|]. repeat split.
Qed.

(** ** Start, Stop and the liveness of the polling loop *)

Section Liveness.

Variable json_Unmarshal : string -> option stats.Summary.

Lemma step_consistent a w w' :
  consistent w -> step json_Unmarshal a w = Stepped w' -> consistent w'.
Proof.
  intros Hc. pose proof Hc as (Hwg & Hle & Hrun & Hlock & Hopen).
  destruct a as [| | |i c inp|]; simpl.
  - (* Start *)
    destruct (lock (mgr w)) eqn:Hl; [done|].
    unfold Start. destruct (running (mgr w)) eqn:Hr; simpl.
    + by intros [= <-].
    + intros [= <-]. unfold consistent; simpl.
      assert (Hz : length (goroutines w) = 0%nat).
      { destruct (goroutines w) as [|g [|g' gs]]; simpl in *; [done| |lia].
        destruct Hrun as [_ Hrun]. by specialize (Hrun eq_refl). }
      rewrite length_app, Hwg, Hz, Hl. simpl. repeat split; try done; lia.
  - (* Stop *)
    destruct (lock (mgr w)) eqn:Hl; [done|].
    unfold Stop. destruct (running (mgr w)) eqn:Hr; simpl.
    + rewrite (Hopen eq_refl eq_refl).
      destruct Hrun as [Hrun _]. specialize (Hrun eq_refl).
      rewrite Hwg, Hrun. intros [= <-].
      unfold consistent; simpl. rewrite Hrun. repeat split; try done; lia.
    + by intros [= <-].
  - (* RecentStats *)
    unfold RecentStats.
    destruct (RecentStats_loop _ _ _); [|done]. simpl.
    by intros [= <-].
  - (* a turn of the loop *)
    destruct (goroutines w !! i) as [g0|] eqn:Hi; [|done].
    destruct (select_ready (mgr w) c); [|done].
    destruct (loop_iteration json_Unmarshal c inp w) as [w1 g1|w1|] eqn:Hit; [| |done].
    + apply loop_iteration_Looped in Hit as (snap & Hm & Hg).
      intros [= <-]. unfold consistent; simpl.
      rewrite !length_insert, Hm, Hg. exact Hc.
    + by apply loop_iteration_never_exits in Hit.
  - (* the parked Stop resumes *)
    unfold Stop_resume. destruct (lock (mgr w)) eqn:Hl; [|done].
    destruct (Hlock eq_refl) as [Hr _].
    destruct Hrun as [Hrun _]. specialize (Hrun Hr).
    rewrite Hwg, Hrun. done.
Qed.

Lemma run_consistent acts : forall w w',
  consistent w -> run json_Unmarshal acts w = Some w' -> consistent w'.
Proof.
  induction acts as [|a acts IH]; intros w w' Hc; simpl.
  - by intros [= <-].
  - destruct (step json_Unmarshal a w) as [w1| |] eqn:Hs; [| |done].
    + apply IH. eapply step_consistent; eauto.
    + by apply IH.
Qed.

Lemma reachable_consistent w : reachable json_Unmarshal w -> consistent w.
Proof.
  intros (currentNode & interval & acts & Hrun).
  eapply run_consistent; [|exact Hrun]. apply NewManager_consistent.
Qed.

Lemma step_parked a w w' :
  parked w -> step json_Unmarshal a w = Stepped w' -> parked w'.
Proof.
  intros (Hl & Hr & Hch & Hwg & Hg).
  destruct a as [| | |i c inp|]; simpl.
  - by rewrite Hl.
  - by rewrite Hl.
  - unfold RecentStats. destruct (RecentStats_loop _ _ _); [|done]. simpl.
    intros [= <-]. by repeat split.
  - destruct (goroutines w !! i); [|done].
    destruct (select_ready (mgr w) c); [|done].
    destruct (loop_iteration json_Unmarshal c inp w) as [w1 g1|w1|] eqn:Hit; [| |done].
    + apply loop_iteration_Looped in Hit as (snap & Hm & Hg1).
      intros [= <-]. unfold parked; simpl.
      rewrite length_insert, Hm, Hg1. simpl. by repeat split.
    + by apply loop_iteration_never_exits in Hit.
  - unfold Stop_resume. by rewrite Hl, Hwg.
Qed.

Lemma run_parked acts : forall w w',
  parked w -> run json_Unmarshal acts w = Some w' -> parked w'.
Proof.
  induction acts as [|a acts IH]; intros w w' Hp; simpl.
  - by intros [= <-].
  - destruct (step json_Unmarshal a w) as [w1| |] eqn:Hs; [| |done].
    + apply IH. eapply step_parked; eauto.
    + by apply IH.
Qed.

End Liveness.

(** C1, evaluated on [Start] followed by [Stop]: [Stop] closes the channel
    and blocks in [m.wg.Wait()].  From then on, under every schedule, the
    caller stays blocked (it cannot resume), the polling goroutine is still
    alive, and a turn of the loop taken through the stop arm of the [select]
    fetches, decodes and publishes a new snapshot like any other turn. *)
Theorem Stop_while_running_never_returns
    (json_Unmarshal : string -> option stats.Summary) currentNode interval :
  exists w2,
    Stop (fst (Start (NewManager currentNode interval))) = StopParked w2
    /\ stopCh (mgr w2) = ChClosed
    /\ forall acts w',
         run json_Unmarshal acts w2 = Some w' ->
         Stop_resume w' = None
         /\ step json_Unmarshal StopResumes w' = Disabled
         /\ running (mgr w') = true
         /\ length (goroutines w') = 1%nat
         /\ forall inp raw,
              json_Unmarshal (content inp) = Some raw ->
              exists w'',
                step json_Unmarshal (Tick 0 RecvStop inp) w' = Stepped w''
                /\ snapshot_view w''
                   = Some (map (project (stats.NodeName (stats.Node raw)))
                             (stats.Pods raw)).
Proof.
  eexists. split; [reflexivity|]. split; [reflexivity|].
  intros acts w' Hrun.
  assert (Hp : parked w').
  { eapply run_parked; [|exact Hrun]. by repeat split. }
  destruct Hp as (Hl & Hr & Hch & Hwg & Hg).
  assert (Hres : Stop_resume w' = None).
  { unfold Stop_resume. by rewrite Hl, Hwg. }
  split; [exact Hres|]. split; [simpl; by rewrite Hres|].
  split; [exact Hr|]. split; [exact Hg|].
  intros inp raw Hdec. simpl.
  destruct (goroutines w') as [|g0 gs] eqn:Hgs; [done|]. simpl.
  unfold select_ready. rewrite Hch. unfold loop_iteration; simpl.
  destruct (poll_cycle_decoded json_Unmarshal inp w' raw Hdec) as (w1 & g1 & Hc & _).
  rewrite Hc. eexists. split; [reflexivity|].
  destruct (poll_cycle_view json_Unmarshal inp w' raw w1 g1 Hdec Hc) as [Hv _].
  exact Hv.
Qed.

(** C6. In every state reachable from [NewManager] by any schedule of
    [Start] and [Stop] calls, reads and turns of the polling loop, at most
    one polling goroutine is alive, [running] is set exactly when one is, and
    [Start] on a running manager returns the already-running error and
    changes nothing, so it spawns no second loop (a caller that finds
    [m.lock] held by a blocked [Stop] does not get in). *)
Theorem at_most_one_polling_loop
    (json_Unmarshal : string -> option stats.Summary) w :
  reachable json_Unmarshal w ->
  (length (goroutines w) <= 1)%nat
  /\ wg (mgr w) = length (goroutines w)
  /\ (running (mgr w) = true <-> length (goroutines w) = 1%nat)
  /\ (running (mgr w) = true ->
      Start w = (w, Some AlreadyRunning)
      /\ step json_Unmarshal CallStart w
         = if lock (mgr w) then Disabled else Stepped w)
  /\ (running (mgr w) = false ->
      exists w', Start w = (w', None) /\ running (mgr w') = true
                 /\ length (goroutines w') = 1%nat).
Proof.
  intros Hreach.
  destruct (reachable_consistent json_Unmarshal w Hreach)
    as (Hwg & Hle & Hrun & _ & _).
  split; [exact Hle|]. split; [exact Hwg|]. split; [exact Hrun|].
  split.
  - intros Hr. unfold step, Start. by rewrite Hr.
  - intros Hr. unfold Start. rewrite Hr. eexists. split; [reflexivity|]. simpl.
    split; [done|]. rewrite length_app. simpl.
    destruct (goroutines w) as [|g [|g' gs]]; simpl in *; [done| |lia].
    destruct Hrun as [_ Hrun]. specialize (Hrun eq_refl). congruence.
Qed.

Lemma at_most_one_polling_loop_witness :
  reachable sample_Unmarshal started
  /\ (length (goroutines started) <= 1)%nat
  /\ wg (mgr started) = length (goroutines started)
  /\ (running (mgr started) = true <-> length (goroutines started) = 1%nat)
  /\ (running (mgr started) = true ->
      Start started = (started, Some AlreadyRunning)
      /\ step sample_Unmarshal CallStart started
         = if lock (mgr started) then Disabled else Stepped started)
  /\ (running (mgr started) = false ->
      exists w', Start started = (w', None) /\ running (mgr w') = true
                 /\ length (goroutines w') = 1%nat).
Proof.
  assert (Hreach : reachable sample_Unmarshal started).
  { exists (Some "node-1"), (15 * second), [CallStart]. reflexivity. }
  split; [exact Hreach|].
  exact (at_most_one_polling_loop sample_Unmarshal started Hreach).
Defined.

(** ** RecentStats *)

Lemma RecentStats_loop_spec h stats : forall ret,
  Forall (fun p => (p < length (recHeap h))%nat) stats ->
  exists recs,
    RecentStats_loop h stats ret = Some (ret ++ recs)
    /\ Forall2 (fun p r => recHeap h !! p = Some r) stats recs.
Proof.
  induction stats as [|stat rest IH]; intros ret Hin; simpl.
  - exists []. by rewrite app_nil_r.
  - apply Forall_cons in Hin as [Hlt Hin].
    destruct (lookup_lt_is_Some_2 _ _ Hlt) as [r Hr]. rewrite Hr.
    destruct (IH (ret ++ [r]) Hin) as (recs & -> & Hall).
    exists (r :: recs). rewrite <- app_assoc. split; [done|]. by constructor.
Qed.

Lemma RecentStats_loop_recHeap h h' stats : forall ret,
  recHeap h = recHeap h' ->
  RecentStats_loop h stats ret = RecentStats_loop h' stats ret.
Proof.
  induction stats as [|stat rest IH]; intros ret Heq; simpl; [done|].
  rewrite Heq. destruct (recHeap h' !! stat); [|done]. by apply IH.
Qed.

(** What a call that returns did: it allocated one new array holding the
    dereferenced records and touched nothing else. *)
Lemma RecentStats_Some w s w1 :
  RecentStats w = Some (s, w1) ->
  exists ret,
    RecentStats_loop (heap w) (podEphemeralStorageStats (mgr w)) [] = Some ret
    /\ s = length (sliceHeap (heap w))
    /\ sliceHeap (heap w1) = sliceHeap (heap w) ++ [ret]
    /\ recHeap (heap w1) = recHeap (heap w)
    /\ fsHeap (heap w1) = fsHeap (heap w)
    /\ mgr w1 = mgr w /\ goroutines w1 = goroutines w /\ klog w1 = klog w.
Proof.
  unfold RecentStats.
  destruct (RecentStats_loop _ _ _) as [ret|]; [|done]. simpl.
  intros [= <- <-]. exists ret. by repeat split.
Qed.

Lemma snapshot_view_frame w w' :
  mgr w' = mgr w -> recHeap (heap w') = recHeap (heap w) ->
  fsHeap (heap w') = fsHeap (heap w) ->
  snapshot_view w' = snapshot_view w.
Proof.
  intros Hm Hr Hf. unfold snapshot_view. rewrite Hm.
  apply mapM_ext. intros p. unfold view_ptr, view_rec. by rewrite Hr, Hf.
Qed.

(** C8. For every well-formed manager state, two calls of [RecentStats] with
    no publish in between both return, and the two returned slices hold the
    same sequence of per-pod records in the same order: the stored records,
    dereferenced in snapshot order. *)
Theorem RecentStats_twice_returns_equal_snapshots w :
  wf w ->
  exists s1 w1 s2 w2 ret,
    RecentStats w = Some (s1, w1)
    /\ RecentStats w1 = Some (s2, w2)
    /\ slice_contents w2 s1 = Some ret
    /\ slice_contents w2 s2 = Some ret
    /\ Forall2 (fun p r => recHeap (heap w) !! p = Some r)
         (podEphemeralStorageStats (mgr w)) ret
    /\ mgr w2 = mgr w
    /\ snapshot_view w2 = snapshot_view w.
Proof.
  intros [Hptrs _].
  destruct (RecentStats_loop_spec (heap w) _ [] Hptrs) as (ret & Hloop & Hall).
  simpl in Hloop.
  assert (H1 : RecentStats w
               = Some (length (sliceHeap (heap w)),
                       set_heap w (snd (alloc_slice ret (heap w))))).
  { unfold RecentStats. by rewrite Hloop. }
  assert (H2 : RecentStats (set_heap w (snd (alloc_slice ret (heap w))))
               = Some (length (sliceHeap (heap w) ++ [ret]),
                       set_heap w (snd (alloc_slice ret
                                          (snd (alloc_slice ret (heap w))))))).
  { unfold RecentStats. simpl.
    rewrite (RecentStats_loop_recHeap _ (heap w)) by done. by rewrite Hloop. }
  eexists _, _, _, _, ret. split; [exact H1|]. split; [exact H2|].
  unfold slice_contents; simpl. repeat split.
  - rewrite lookup_app_l by (rewrite length_app; simpl; lia).
    by apply list_lookup_middle.
  - by apply list_lookup_middle.
  - exact Hall.
Qed.

Lemma polled_wf : wf (polled "summary: pod-a, pod-b").
Proof. split; vm_compute; repeat constructor. Qed.

Lemma RecentStats_twice_returns_equal_snapshots_witness :
  exists s1 w1 s2 w2 ret,
    RecentStats (polled "summary: pod-a, pod-b") = Some (s1, w1)
    /\ RecentStats w1 = Some (s2, w2)
    /\ slice_contents w2 s1 = Some ret
    /\ slice_contents w2 s2 = Some ret
    /\ Forall2 (fun p r => recHeap (heap (polled "summary: pod-a, pod-b")) !! p = Some r)
         (podEphemeralStorageStats (mgr (polled "summary: pod-a, pod-b"))) ret
    /\ mgr w2 = mgr (polled "summary: pod-a, pod-b")
    /\ snapshot_view w2 = snapshot_view (polled "summary: pod-a, pod-b").
Proof.
  apply (RecentStats_twice_returns_equal_snapshots (polled "summary: pod-a, pod-b")).
  split; vm_compute; repeat constructor.
Defined.

Lemma RecentStats_loop_Some h stats : forall ret out,
  RecentStats_loop h stats ret = Some out ->
  exists recs,
    out = ret ++ recs /\ Forall2 (fun p r => recHeap h !! p = Some r) stats recs.
Proof.
  induction stats as [|stat rest IH]; intros ret out; simpl.
  - intros [= <-]. exists []. by rewrite app_nil_r.
  - destruct (recHeap h !! stat) as [r|] eqn:Hr; [|done].
    intros Hloop. apply IH in Hloop as (recs & -> & Hall).
    exists (r :: recs). rewrite <- app_assoc. split; [done|]. by constructor.
Qed.

Lemma apply_mutation_shallow s mu h h' :
  through_pointer mu = false ->
  apply_mutation s mu h = Some h' ->
  recHeap h' = recHeap h /\ fsHeap h' = fsHeap h.
Proof.
  unfold apply_mutation. destruct (sliceHeap h !! s) as [arr|]; [|done].
  destruct mu as [i r|i v|i v|i v|i fs]; simpl; try done;
    (intros _; destruct (arr !! i); [|done]; by intros [= <-]).
Qed.

(** Reads and assignments to slice elements or their named fields leave the
    manager, its records and their stats objects alone. *)
Lemma run_client_frame ops : forall w w',
  Forall (fun op => shallow_op op = true) ops ->
  run_client ops w = Some w' ->
  mgr w' = mgr w
  /\ recHeap (heap w') = recHeap (heap w)
  /\ fsHeap (heap w') = fsHeap (heap w).
Proof.
  induction ops as [|op ops IH]; intros w w' Hsh; simpl.
  - by intros [= <-].
  - apply Forall_cons in Hsh as [Hop Hsh]. destruct op as [|s mu].
    + destruct (RecentStats w) as [[s1 w1]|] eqn:Hread; [|done].
      apply RecentStats_Some in Hread as (_ & _ & _ & _ & Hr & Hf & Hm & _).
      intros Hrun. destruct (IH _ _ Hsh Hrun) as (-> & -> & ->). by repeat split.
    + destruct (apply_mutation s mu (heap w)) as [h|] eqn:Hmu; [|done].
      simpl in Hop. apply negb_true_iff in Hop.
      destruct (apply_mutation_shallow _ _ _ _ Hop Hmu) as [Hr Hf].
      intros Hrun. destruct (IH _ _ Hsh Hrun) as (-> & -> & ->). by repeat split.
Qed.

(** C10. The slice a call of [RecentStats] returns is a newly allocated
    array holding copies of the stored records.  Whatever the callers then do
    with the returned slices, assign their elements or the named fields of
    their records, and however often they read again, the manager's snapshot,
    its records and what they point to are unchanged. *)
Theorem RecentStats_returns_an_independent_copy w s w1 ops w' :
  RecentStats w = Some (s, w1) ->
  Forall (fun op => shallow_op op = true) ops ->
  run_client ops w1 = Some w' ->
  sliceHeap (heap w) !! s = None
  /\ (exists ret,
        slice_contents w1 s = Some ret
        /\ Forall2 (fun p r => recHeap (heap w) !! p = Some r)
             (podEphemeralStorageStats (mgr w)) ret)
  /\ mgr w' = mgr w
  /\ recHeap (heap w') = recHeap (heap w)
  /\ fsHeap (heap w') = fsHeap (heap w)
  /\ snapshot_view w' = snapshot_view w.
Proof.
  intros Hread Hsh Hrun.
  apply RecentStats_Some in Hread
    as (ret & Hloop & -> & Hsl & Hr & Hf & Hm & _).
  destruct (run_client_frame ops w1 w' Hsh Hrun) as (Hm' & Hr' & Hf').
  split; [apply lookup_ge_None; lia|].
  split.
  { exists ret. split.
    - unfold slice_contents. rewrite Hsl. by apply list_lookup_middle.
    - apply RecentStats_loop_Some in Hloop as (recs & -> & Hall). exact Hall. }
  assert (Hmw : mgr w' = mgr w) by congruence.
  assert (Hrw : recHeap (heap w') = recHeap (heap w)) by congruence.
  assert (Hfw : fsHeap (heap w') = fsHeap (heap w)) by congruence.
  repeat split; try done. by apply snapshot_view_frame.
Qed.

Lemma RecentStats_returns_an_independent_copy_witness :
  exists w1 w',
    RecentStats (polled "summary: pod-a, pod-b") = Some (0%nat, w1)
    /\ run_client
         [Mutate 0 (SetPodName 0 "renamed"); Read;
          Mutate 0 (SetElem 1 {| nodeName := ""; podName := ""; namespace := "";
                                 FsStats := None |});
          Mutate 1 (SetNamespace 1 "other")] w1 = Some w'
    /\ slice_contents w' 0%nat
       <> slice_contents w1 0%nat
    /\ sliceHeap (heap (polled "summary: pod-a, pod-b")) !! 0%nat = None
    /\ mgr w' = mgr (polled "summary: pod-a, pod-b")
    /\ recHeap (heap w') = recHeap (heap (polled "summary: pod-a, pod-b"))
    /\ fsHeap (heap w') = fsHeap (heap (polled "summary: pod-a, pod-b"))
    /\ snapshot_view w' = snapshot_view (polled "summary: pod-a, pod-b").
Proof.
  eexists _, _. split; [reflexivity|]. split; [reflexivity|].
  split; [discriminate|].
  destruct (RecentStats_returns_an_independent_copy
              (polled "summary: pod-a, pod-b") 0%nat _ _ _
              eq_refl
              ltac:(repeat constructor)
              eq_refl) as (Hfresh & _ & Hm & Hr & Hf & Hv).
  by repeat split.
Defined.

(** The embedded [*stats.FsStats] is copied as a pointer: a write through it
    from a returned record is seen in the stored snapshot.  The copy is
    independent in its slice and named fields only. *)
Lemma write_through_the_embedded_pointer_is_shared :
  exists w1 h,
    RecentStats (polled "summary: pod-a, pod-b") = Some (0%nat, w1)
    /\ apply_mutation 0 (WriteFsStats 0 fs_no_available) (heap w1) = Some h
    /\ snapshot_view (set_heap w1 h) <> snapshot_view (polled "summary: pod-a, pod-b").
Proof.
  eexists _, _. split; [reflexivity|]. split; [reflexivity|]. discriminate.
Qed.

(** ** Reachable states are well formed *)

Lemma wf_rec_mono h h' r :
  (length (fsHeap h) <= length (fsHeap h'))%nat -> wf_rec h r -> wf_rec h' r.
Proof. unfold wf_rec. destruct (FsStats r); [lia|done]. Qed.

Lemma build_snapshot_wf node_name pods : forall acc h acc' h',
  build_snapshot node_name pods acc h = (acc', h') ->
  Forall (wf_rec h) (recHeap h) ->
  Forall (fun p => (p < length (recHeap h))%nat) acc ->
  Forall (wf_rec h') (recHeap h')
  /\ Forall (fun p => (p < length (recHeap h'))%nat) acc'.
Proof.
  induction pods as [|podStat rest IH]; intros acc h acc' h'; simpl.
  - by intros [= <- <-].
  - destruct (alloc_fs (stats.EphemeralStorage podStat) h) as [fsp h1] eqn:Hfs.
    assert (Hh1 : recHeap h1 = recHeap h
                  /\ (length (fsHeap h) <= length (fsHeap h1))%nat
                  /\ wf_rec h1 {| nodeName := node_name;
                                  podName := stats.Name (stats.PodRef podStat);
                                  namespace := stats.Namespace (stats.PodRef podStat);
                                  FsStats := fsp |}).
    { unfold alloc_fs in Hfs.
      destruct (stats.EphemeralStorage podStat); injection Hfs as <- <-;
        unfold wf_rec; simpl; rewrite ?length_app; simpl; repeat split; lia. }
    destruct Hh1 as (Hrec1 & Hlen1 & Hwf1).
    intros Hb Hrecs Hacc. apply IH in Hb; [exact Hb| |]; simpl.
    + rewrite Hrec1. apply Forall_app. split.
      * eapply Forall_impl; [exact Hrecs|]. intros r. by apply wf_rec_mono.
      * constructor; [|constructor]. exact Hwf1.
    + rewrite Hrec1. apply Forall_app. split.
      * eapply Forall_impl; [exact Hacc|]. intros p. simpl.
        rewrite length_app. lia.
      * constructor; [|constructor]. rewrite length_app. simpl. lia.
Qed.

Section WellFormed.

Variable json_Unmarshal : string -> option stats.Summary.

Lemma poll_cycle_wf inp w w' g :
  wf w -> poll_cycle json_Unmarshal inp w = Looped w' g -> wf w'.
Proof.
  intros [_ Hrecs]. unfold poll_cycle.
  destruct (json_Unmarshal (content inp)) as [raw|]; [|done].
  destruct (build_snapshot _ _ _ _) as [snap h] eqn:Hb.
  intros [= <- <-]. unfold wf; simpl.
  apply build_snapshot_wf in Hb as [? ?]; [by split|exact Hrecs|constructor].
Qed.

Lemma step_wf a w w' :
  wf w -> step json_Unmarshal a w = Stepped w' -> wf w'.
Proof.
  intros Hwf. destruct a as [| | |i c inp|]; simpl.
  - destruct (lock (mgr w)); [done|]. unfold Start.
    destruct (running (mgr w)); by intros [= <-].
  - destruct (lock (mgr w)); [done|]. unfold Stop.
    destruct (running (mgr w)); simpl.
    + destruct (stopCh (mgr w)); [done| |done].
      destruct (wg (mgr w)); by intros [= <-].
    + by intros [= <-].
  - destruct (RecentStats w) as [[s w1]|] eqn:Hread; [|done].
    apply RecentStats_Some in Hread as (_ & _ & _ & _ & Hr & Hf & Hm & _).
    intros [= <-]. destruct Hwf as [Hp Hrecs]. unfold wf, wf_rec.
    rewrite Hm, Hr, Hf. by split.
  - destruct (goroutines w !! i); [|done].
    destruct (select_ready (mgr w) c); [|done].
    destruct (loop_iteration json_Unmarshal c inp w) as [w1 g1|w1|] eqn:Hit; [| |done].
    + intros [= <-]. unfold loop_iteration in Hit.
      destruct (select_arm c); [|done].
      by apply (poll_cycle_wf _ _ _ _ Hwf) in Hit.
    + by apply loop_iteration_never_exits in Hit.
  - unfold Stop_resume. destruct (lock (mgr w)); [|done].
    destruct (wg (mgr w)); [|done]. by intros [= <-].
Qed.

Lemma reachable_wf w : reachable json_Unmarshal w -> wf w.
Proof.
  intros (currentNode & interval & acts & Hrun).
  assert (Hinit : wf (NewManager currentNode interval)) by (split; constructor).
  revert Hrun Hinit. generalize (NewManager currentNode interval).
  induction acts as [|a acts IH]; intros w0; simpl.
  - by intros [= <-].
  - destruct (step json_Unmarshal a w0) as [w1| |] eqn:Hs; [| |done].
    + intros Hrun Hwf. apply (IH w1 Hrun). by eapply step_wf.
    + apply IH.
Qed.

(** In a reachable state every call of [RecentStats] returns. *)
Lemma reachable_RecentStats_returns w :
  reachable json_Unmarshal w -> exists s w1, RecentStats w = Some (s, w1).
Proof.
  intros Hreach. destruct (reachable_wf w Hreach) as [Hp _].
  destruct (RecentStats_loop_spec (heap w) _ [] Hp) as (ret & Hloop & _).
  unfold RecentStats. rewrite Hloop. simpl. by eexists _, _.
Qed.

End WellFormed.

(** * Further properties of the program *)

(** ** Code that sends and may panic *)

Lemma ebind_fst_snd {A B} (x : emitter A) (k : A -> emitter B) :
  ebind x k
  = match snd x with
    | Some a => (fst x ++ fst (k a), snd (k a))
    | None => (fst x, None)
    end.
Proof. destruct x as [out [a|]]; simpl; [|done]. by destruct (k a). Qed.

Lemma for_each_sends {A} (f : A -> emitter unit) (g : A -> Metric) (l : list A) :
  Forall (fun x => f x = ([g x], Some tt)) l ->
  for_each f l = (map g l, Some tt).
Proof.
  induction 1 as [|x l Hx _ IH]; simpl; [done|].
  by rewrite ebind_fst_snd, Hx, IH.
Qed.

Lemma for_each_returns_iff {A} (f : A -> emitter unit) (l : list A) :
  snd (for_each f l) = Some tt <-> Forall (fun x => snd (f x) = Some tt) l.
Proof.
  induction l as [|x l IH]; simpl.
  - split; [constructor|done].
  - rewrite ebind_fst_snd, Forall_cons.
    destruct (snd (f x)) as [[]|]; simpl; [|by split; [|intros []]].
    rewrite IH. tauto.
Qed.

Lemma for_each_elem {A} (f : A -> emitter unit) (l : list A) m :
  m ∈ fst (for_each f l) -> exists x, x ∈ l /\ m ∈ fst (f x).
Proof.
  induction l as [|x l IH]; simpl.
  - by intros ?%elem_of_nil.
  - rewrite ebind_fst_snd.
    destruct (snd (f x)) as [[]|]; simpl.
    + intros [Hm|Hm]%elem_of_app.
      * exists x. split; [left|done].
      * destruct (IH Hm) as (y & Hy & Hmy). exists y. split; [by right|done].
    + intros Hm. exists x. split; [left|done].
Qed.

Lemma collectEphemeralStorageInfo_loops c h recs :
  collectEphemeralStorageInfo c h recs
  = for_each (fun metric =>
      for_each (send_sample metric
                  (desc metric ["node_name"; "namespace_name"; "pod_name"]) h) recs)
      (metrics c).
Proof. reflexivity. Qed.

(** One turn of the inner loop: a sample when the extractor finds its field,
    a panic before anything is sent when it does not. *)
Lemma send_sample_cases metric h stat :
  extraLabels metric = [] ->
  send_sample metric (desc metric ["node_name"; "namespace_name"; "pod_name"]) h stat
  = match getValue metric h (FsStats stat) with
    | Some v =>
        ([{| desc_of := desc metric ["node_name"; "namespace_name"; "pod_name"];
             metricType := valueType metric;
             value := v;
             labelValues := [nodeName stat; namespace stat; podName stat] |}],
         Some tt)
    | None => ([], None)
    end.
Proof.
  intros Hex. unfold send_sample, MustNewConstMetric, desc. rewrite Hex.
  by destruct (getValue metric h (FsStats stat)).
Qed.

Lemma for_each_sends2 {A B} (f : A -> emitter unit) (g : B -> Metric)
    (l : list A) (k : list B) :
  Forall2 (fun x y => f x = ([g y], Some tt)) l k ->
  for_each f l = (map g k, Some tt).
Proof.
  induction 1 as [|x y l k Hx _ IH]; simpl; [done|].
  by rewrite ebind_fst_snd, Hx, IH.
Qed.

Lemma Forall2_Forall_iff {A B} (R : A -> B -> Prop) (P : A -> Prop) (Q : B -> Prop)
    (l : list A) (k : list B) :
  Forall2 R l k -> (forall x y, R x y -> (P x <-> Q y)) ->
  (Forall P l <-> Forall Q k).
Proof.
  intros HR HPQ. induction HR as [|x y l k Hxy _ IH]; [by split|].
  rewrite !Forall_cons, IH, (HPQ x y Hxy). tauto.
Qed.

(** ** What RecentStats hands to the collector *)

Lemma view_rec_inv h r v :
  view_rec h r = Some v ->
  vNodeName v = nodeName r /\ vPodName v = podName r /\ vNamespace v = namespace r
  /\ deref_fs h (FsStats r) = vStats v.
Proof.
  unfold view_rec, deref_fs. destruct (FsStats r) as [l|].
  - destruct (fsHeap h !! l); [|done]. by intros [= <-].
  - by intros [= <-].
Qed.

Lemma RecentStats_loop_views h stats vs :
  Forall2 (fun p v => view_ptr h p = Some v) stats vs ->
  forall ret, exists recs,
    RecentStats_loop h stats ret = Some (ret ++ recs)
    /\ Forall2 (fun r v => view_rec h r = Some v) recs vs.
Proof.
  induction 1 as [|p v stats vs Hp _ IH]; intros ret; simpl.
  - exists []. by rewrite app_nil_r.
  - unfold view_ptr in Hp. destruct (recHeap h !! p) as [r|]; [|done].
    destruct (IH (ret ++ [r])) as (recs & -> & Hall).
    exists (r :: recs). rewrite <- app_assoc. split; [done|]. by constructor.
Qed.

(** On a state whose snapshot can be viewed, [RecentStats] returns a new
    slice with one record per view, in order. *)
Lemma RecentStats_views w vs :
  snapshot_view w = Some vs ->
  exists ret w1,
    RecentStats w = Some (length (sliceHeap (heap w)), w1)
    /\ slice_contents w1 (length (sliceHeap (heap w))) = Some ret
    /\ Forall2 (fun r v => view_rec (heap w1) r = Some v) ret vs
    /\ mgr w1 = mgr w
    /\ recHeap (heap w1) = recHeap (heap w)
    /\ fsHeap (heap w1) = fsHeap (heap w)
    /\ sliceHeap (heap w1) = sliceHeap (heap w) ++ [ret]
    /\ goroutines w1 = goroutines w /\ klog w1 = klog w.
Proof.
  unfold snapshot_view. rewrite mapM_Some. intros Hall.
  destruct (RecentStats_loop_views _ _ _ Hall []) as (ret & Hloop & Hviews).
  simpl in Hloop. unfold RecentStats. rewrite Hloop. simpl.
  eexists ret, _. split; [reflexivity|]. unfold slice_contents; simpl.
  split; [by apply list_lookup_middle|]. by repeat split.
Qed.

Lemma Collect_after_RecentStats c w s w1 ret :
  RecentStats w = Some (s, w1) ->
  slice_contents w1 s = Some ret ->
  Collect c w
  = (_ <-- collectEphemeralStorageInfo {| errors := 0; metrics := metrics c |}
             (heap w1) ret ;;
     _ <-- send {| desc_of := errors_desc; metricType := GaugeValue;
                   value := 0; labelValues := [] |} ;;
     eret ({| errors := 0; metrics := metrics c |}, w1)).
Proof. intros Hr Hs. unfold Collect. by rewrite Hr, Hs. Qed.

(** ** A scrape of complete records *)

Lemma Collect_complete_samples e w cs :
  snapshot_view w = Some (map complete_view cs) ->
  fst (Collect (collector_with e) w) = expected_samples cs
  /\ length (fst (Collect (collector_with e) w)) = (3 * length cs + 1)%nat
  /\ exists w', snd (Collect (collector_with e) w) = Some (collector_with 0, w').
Proof.
  intros Hview.
  destruct (RecentStats_views w _ Hview)
    as (ret & w1 & Hread & Hslice & Hrecs & _).
  rewrite (Collect_after_RecentStats _ _ _ _ _ Hread Hslice).
  apply Forall2_fmap_r in Hrecs.
  rewrite collectEphemeralStorageInfo_loops. simpl metrics.
  assert (Hloop : forall metric proj,
    extraLabels metric = [] -> valueType metric = GaugeValue ->
    (forall p, getValue metric (heap w1) p
               = match deref_fs (heap w1) p with
                 | Some fs => proj fs
                 | None => None
                 end) ->
    forall f, (forall c, proj {| stats.AvailableBytes := Some (cAvailable c);
                                 stats.CapacityBytes := Some (cCapacity c);
                                 stats.UsedBytes := Some (cUsed c) |} = Some (f c)) ->
    for_each (send_sample metric
                (desc metric ["node_name"; "namespace_name"; "pod_name"]) (heap w1)) ret
    = (map (fun c => storage_sample (name metric) (help metric) (f c)
                       (cNodeName c) (cNamespace c) (cPodName c)) cs, Some tt)).
  { intros metric proj Hex Hvt Hget f Hproj. apply for_each_sends2.
    eapply Forall2_impl; [exact Hrecs|]. simpl. intros r c Hv.
    apply view_rec_inv in Hv as (Hn & Hp & Hns & Hd). simpl in *.
    rewrite send_sample_cases by exact Hex.
    rewrite Hget, Hd, Hproj, Hvt. unfold storage_sample, desc.
    by rewrite Hex, Hn, Hp, Hns. }
  cbn [for_each].
  repeat match goal with
  | |- context [for_each (send_sample ?m _ _) ret] =>
      first
        [ rewrite (Hloop m stats.UsedBytes eq_refl eq_refl (fun _ => eq_refl)
                     cUsed (fun _ => eq_refl))
        | rewrite (Hloop m stats.AvailableBytes eq_refl eq_refl (fun _ => eq_refl)
                     cAvailable (fun _ => eq_refl))
        | rewrite (Hloop m stats.CapacityBytes eq_refl eq_refl (fun _ => eq_refl)
                     cCapacity (fun _ => eq_refl)) ]
  end.
  simpl. rewrite !app_nil_r.
  assert (Hout : forall A B C : list Metric,
            (A ++ B ++ C) ++ [error_gauge_sample] = A ++ B ++ C ++ [error_gauge_sample]).
  { intros. by rewrite <- !app_assoc. }
  unfold expected_samples. split; [|split].
  - by rewrite Hout.
  - rewrite !length_app, !length_map. simpl. lia.
  - by eexists.
Qed.

(** On a snapshot whose records all have their three byte counts, [Collect]
    returns and sends, for n pods, the n used-bytes samples, the n
    available-bytes samples, the n capacity samples and then the error gauge
    at 0: 3n + 1 samples, each labelled with its pod's node, namespace and
    name; an empty snapshot gives the gauge alone. *)
Theorem Collect_on_complete_records e w cs :
  snapshot_view w = Some (map complete_view cs) ->
  fst (Collect (collector_with e) w) = expected_samples cs
  /\ length (fst (Collect (collector_with e) w)) = (3 * length cs + 1)%nat
  /\ exists w', snd (Collect (collector_with e) w) = Some (collector_with 0, w').
Proof. apply Collect_complete_samples. Qed.

Lemma Collect_on_complete_records_witness :
  snapshot_view (polled "summary: pod-a")
  = Some (map complete_view
            [{| cNodeName := "node-1"; cPodName := "pod-a"; cNamespace := "default";
                cUsed := 100; cAvailable := 200; cCapacity := 300 |}])
  /\ length (fst (Collect (collector_with 1) (polled "summary: pod-a"))) = 4%nat.
Proof.
  split; [reflexivity|].
  apply (Collect_on_complete_records 1 (polled "summary: pod-a")
           [{| cNodeName := "node-1"; cPodName := "pod-a"; cNamespace := "default";
               cUsed := 100; cAvailable := 200; cCapacity := 300 |}]).
  reflexivity.
Defined.

(** ** A scrape of any snapshot *)

Lemma three_extractors_iff h r v :
  view_rec h r = Some v ->
  Forall (fun metric =>
            snd (send_sample metric
                   (desc metric ["node_name"; "namespace_name"; "pod_name"]) h r)
            = Some tt)
         (metrics newEphemeralStorageCollector)
  <-> has_all_bytes v = true.
Proof.
  intros Hv. apply view_rec_inv in Hv as (_ & _ & _ & Hd).
  simpl metrics. rewrite !Forall_cons, Forall_nil.
  rewrite !send_sample_cases by reflexivity. simpl getValue. rewrite Hd.
  unfold has_all_bytes.
  destruct (vStats v) as [fs|]; [|simpl; intuition discriminate].
  destruct (stats.UsedBytes fs), (stats.AvailableBytes fs), (stats.CapacityBytes fs);
    simpl; intuition discriminate.
Qed.

Lemma Forall_swap {A B} (P : A -> B -> Prop) (l : list A) (k : list B) :
  Forall (fun x => Forall (P x) k) l <-> Forall (fun y => Forall (fun x => P x y) l) k.
Proof.
  rewrite !Forall_forall. setoid_rewrite Forall_forall. naive_solver.
Qed.

Lemma Collect_returns_iff e w vs :
  snapshot_view w = Some vs ->
  is_Some (snd (Collect (collector_with e) w))
  <-> Forall (fun v => has_all_bytes v = true) vs.
Proof.
  intros Hview.
  destruct (RecentStats_views w _ Hview)
    as (ret & w1 & Hread & Hslice & Hrecs & _).
  rewrite (Collect_after_RecentStats _ _ _ _ _ Hread Hslice).
  rewrite ebind_fst_snd.
  assert (Hiff : snd (collectEphemeralStorageInfo
                        {| errors := 0; metrics := metrics (collector_with e) |}
                        (heap w1) ret) = Some tt
                 <-> Forall (fun v => has_all_bytes v = true) vs).
  { rewrite collectEphemeralStorageInfo_loops, for_each_returns_iff.
    setoid_rewrite for_each_returns_iff.
    rewrite Forall_swap.
    apply (Forall2_Forall_iff _ _ _ _ _ Hrecs).
    intros r v Hv. by apply three_extractors_iff. }
  destruct (snd (collectEphemeralStorageInfo _ _ _)) as [[]|] eqn:Hsnd; simpl.
  - split; [intros _; by apply Hiff|by eexists].
  - split; [by intros [? ?]|]. intros Hall. apply Hiff in Hall. done.
Qed.

(** [Collect] returns exactly when every record of the snapshot has its
    three byte counts.  If a single record lacks one (or has no stats at
    all), the scrape panics, and it does so before the error gauge is sent. *)
Theorem Collect_returns_iff_all_complete e w vs :
  snapshot_view w = Some vs ->
  (is_Some (snd (Collect (collector_with e) w))
   <-> Forall (fun v => has_all_bytes v = true) vs)
  /\ (snd (Collect (collector_with e) w) = None ->
      error_gauge_sample ∉ fst (Collect (collector_with e) w)).
Proof.
  intros Hview.
  destruct (RecentStats_views w _ Hview)
    as (ret & w1 & Hread & Hslice & Hrecs & _).
  rewrite (Collect_after_RecentStats _ _ _ _ _ Hread Hslice).
  rewrite ebind_fst_snd.
  assert (Hiff : snd (collectEphemeralStorageInfo
                        {| errors := 0; metrics := metrics (collector_with e) |}
                        (heap w1) ret) = Some tt
                 <-> Forall (fun v => has_all_bytes v = true) vs).
  { rewrite collectEphemeralStorageInfo_loops, for_each_returns_iff.
    setoid_rewrite for_each_returns_iff.
    rewrite Forall_swap.
    apply (Forall2_Forall_iff _ _ _ _ _ Hrecs).
    intros r v Hv. by apply three_extractors_iff. }
  destruct (snd (collectEphemeralStorageInfo _ _ _)) as [[]|] eqn:Hsnd; simpl.
  - split; [|done]. split; [intros _; by apply Hiff|by eexists].
  - split.
    + split; [by intros [? ?]|]. intros Hall. apply Hiff in Hall. done.
    + intros _ Hin. rewrite collectEphemeralStorageInfo_loops in Hin.
      apply for_each_elem in Hin as (metric & Hmetric & Hin).
      apply for_each_elem in Hin as (r & _ & Hin).
      simpl in Hmetric.
      assert (Hex : extraLabels metric = []).
      { repeat (apply elem_of_cons in Hmetric as [->|Hmetric]; [done|]).
        by apply elem_of_nil in Hmetric. }
      rewrite send_sample_cases in Hin by exact Hex.
      destruct (getValue metric (heap w1) (FsStats r)); simpl in Hin.
      * apply list_elem_of_singleton in Hin. discriminate Hin.
      * by apply elem_of_nil in Hin.
Qed.

Lemma Collect_returns_iff_all_complete_witness :
  snapshot_view (polled "summary: pod-a, pod-b")
  = Some [project "node-1" pod_a; project "node-1" pod_b]
  /\ ~ Forall (fun v => has_all_bytes v = true)
         [project "node-1" pod_a; project "node-1" pod_b]
  /\ ~ is_Some (snd (Collect (collector_with 0) (polled "summary: pod-a, pod-b"))).
Proof.
  split; [reflexivity|].
  destruct (Collect_returns_iff_all_complete 0 (polled "summary: pod-a, pod-b")
              [project "node-1" pod_a; project "node-1" pod_b] eq_refl)
    as [Hiff _].
  assert (Hno : ~ Forall (fun v => has_all_bytes v = true)
                    [project "node-1" pod_a; project "node-1" pod_b]).
  { intros Hall. apply Forall_cons in Hall as [_ Hall].
    apply Forall_cons in Hall as [Hb _]. discriminate Hb. }
  split; [exact Hno|]. intros Hsome. apply Hno. by apply Hiff.
Defined.

(** A scrape that returns leaves the manager, its snapshot, its records and
    their stats objects as they were: it allocates the slice of its one read
    and sets the gauge to 0, nothing else. *)
Theorem Collect_reads_only c w c' w' :
  snd (Collect c w) = Some (c', w') ->
  errors c' = 0 /\ metrics c' = metrics c
  /\ mgr w' = mgr w
  /\ recHeap (heap w') = recHeap (heap w)
  /\ fsHeap (heap w') = fsHeap (heap w)
  /\ length (sliceHeap (heap w')) = S (length (sliceHeap (heap w)))
  /\ goroutines w' = goroutines w
  /\ klog w' = klog w
  /\ snapshot_view w' = snapshot_view w.
Proof.
  unfold Collect.
  destruct (RecentStats w) as [[s w1]|] eqn:Hread; [|done].
  apply RecentStats_Some in Hread as (ret & _ & _ & Hsl & Hr & Hf & Hm & Hg & Hk).
  destruct (slice_contents w1 s) as [records|]; [|done].
  rewrite !ebind_fst_snd.
  destruct (snd (collectEphemeralStorageInfo _ _ _)); [|done]. simpl.
  intros [= <- <-]. simpl.
  repeat split; try done.
  - rewrite Hsl, length_app. simpl. lia.
  - by apply snapshot_view_frame.
Qed.

Lemma Collect_reads_only_witness :
  exists c' w',
    snd (Collect (collector_with 1) (polled "summary: pod-a")) = Some (c', w')
    /\ errors c' = 0
    /\ mgr w' = mgr (polled "summary: pod-a")
    /\ snapshot_view w' = snapshot_view (polled "summary: pod-a").
Proof.
  eexists _, _. split; [reflexivity|].
  destruct (Collect_reads_only (collector_with 1) (polled "summary: pod-a") _ _ eq_refl)
    as (He & _ & Hm & _ & _ & _ & _ & _ & Hv).
  by repeat split.
Defined.

(** Every sample [Collect] sends is the error gauge at 0 or the sample of one
    of the three metrics for one record. *)
Lemma Collect_sample_cases e w m :
  m ∈ fst (Collect (collector_with e) w) ->
  m = error_gauge_sample
  \/ exists metric v r,
       metric ∈ metrics newEphemeralStorageCollector
       /\ m = {| desc_of := desc metric ["node_name"; "namespace_name"; "pod_name"];
                 metricType := GaugeValue;
                 value := v;
                 labelValues := [nodeName r; namespace r; podName r] |}.
Proof.
  unfold Collect.
  destruct (RecentStats w) as [[s w1]|]; [|by intros ?%elem_of_nil].
  destruct (slice_contents w1 s) as [records|]; [|by intros ?%elem_of_nil].
  rewrite !ebind_fst_snd.
  assert (Hstorage : m ∈ fst (collectEphemeralStorageInfo
                                {| errors := 0; metrics := metrics (collector_with e) |}
                                (heap w1) records) ->
            exists metric v r,
              metric ∈ metrics newEphemeralStorageCollector
              /\ m = {| desc_of := desc metric ["node_name"; "namespace_name"; "pod_name"];
                        metricType := GaugeValue; value := v;
                        labelValues := [nodeName r; namespace r; podName r] |}).
  { rewrite collectEphemeralStorageInfo_loops. intros Hin.
    apply for_each_elem in Hin as (metric & Hmetric & Hin).
    apply for_each_elem in Hin as (r & _ & Hin).
    assert (Hex : extraLabels metric = [] /\ valueType metric = GaugeValue).
    { simpl in Hmetric.
      repeat (apply elem_of_cons in Hmetric as [->|Hmetric]; [done|]).
      by apply elem_of_nil in Hmetric. }
    destruct Hex as [Hex Hvt].
    rewrite send_sample_cases in Hin by exact Hex.
    destruct (getValue metric (heap w1) (FsStats r)) as [v|]; simpl in Hin.
    - apply list_elem_of_singleton in Hin. exists metric, v, r.
      split; [exact Hmetric|]. by rewrite Hin, Hvt.
    - by apply elem_of_nil in Hin. }
  destruct (snd (collectEphemeralStorageInfo _ _ _)); simpl.
  - intros [Hin|Hin]%elem_of_app; [right; by apply Hstorage|].
    left. by apply list_elem_of_singleton in Hin.
  - intros Hin. right. by apply Hstorage.
Qed.

(** The scrape-error gauge never reports anything but 0, whatever the gauge
    held before and whatever happened in the polling loop (fetch errors
    included): every sample of that name [Collect] sends has value 0 and no
    labels, and every other sample is a gauge-typed storage sample with three
    label values. *)
Theorem scrape_error_is_always_zero e w m :
  m ∈ fst (Collect (collector_with e) w) ->
  (fqName (desc_of m) = "ephemeral_storage_scrape_error" ->
   value m = 0 /\ labelValues m = [])
  /\ (fqName (desc_of m) <> "ephemeral_storage_scrape_error" ->
      metricType m = GaugeValue /\ length (labelValues m) = 3%nat
      /\ variableLabels (desc_of m) = ["node_name"; "namespace_name"; "pod_name"]).
Proof.
  intros Hin.
  destruct (Collect_sample_cases e w m Hin)
    as [->|(metric & v & r & Hmetric & ->)]; simpl.
  - split; [done|]. intros Hne. by destruct Hne.
  - simpl in Hmetric.
    repeat (apply elem_of_cons in Hmetric as [->|Hmetric];
            [split; [discriminate|done]|]).
    by apply elem_of_nil in Hmetric.
Qed.

Lemma scrape_error_is_always_zero_witness :
  error_gauge_sample
  ∈ fst (Collect (collector_with 1)
           (polled "summary: pod-a"))
  /\ value error_gauge_sample = 0.
Proof.
  assert (Hin : error_gauge_sample
                ∈ fst (Collect (collector_with 1) (polled "summary: pod-a"))).
  { vm_compute. do 3 right. left. }
  split; [exact Hin|].
  destruct (scrape_error_is_always_zero 1 (polled "summary: pod-a")
              error_gauge_sample Hin) as [Hz _].
  by destruct (Hz eq_refl).
Defined.

(** [Describe] announces four descriptors with pairwise distinct names, none
    with a variable label.  Every sample [Collect] sends carries one of those
    names, but the storage samples are built on descriptors with the three
    labels node_name, namespace_name and pod_name: descriptors [Describe]
    never announced. *)
Theorem Describe_names_and_Collect_descriptors e w :
  map fqName (Describe (collector_with e))
  = ["ephemeral_storage_scrape_error"; "ephemeral_storage_pod_used_bytes";
     "ephemeral_storage_pod_available_bytes"; "ephemeral_storage_pod_capacity_bytes"]
  /\ NoDup (map fqName (Describe (collector_with e)))
  /\ Forall (fun d => variableLabels d = []) (Describe (collector_with e))
  /\ forall m,
       m ∈ fst (Collect (collector_with e) w) ->
       fqName (desc_of m) ∈ map fqName (Describe (collector_with e))
       /\ (m <> error_gauge_sample ->
           desc_of m ∉ Describe (collector_with e)).
Proof.
  split; [reflexivity|]. split.
  { simpl. repeat (constructor; [rewrite ?elem_of_cons, elem_of_nil;
                                 intuition discriminate|]). constructor. }
  split; [by repeat constructor|].
  intros m Hin.
  destruct (Collect_sample_cases e w m Hin)
    as [->|(metric & v & r & Hmetric & ->)]; simpl.
  - split; [left|done].
  - simpl in Hmetric.
    repeat (apply elem_of_cons in Hmetric as [->|Hmetric];
            [split; [unfold Describe, desc; simpl;
                     repeat first [left; reflexivity|right]
                    |intros _; unfold Describe, desc; simpl;
                     rewrite !elem_of_cons, elem_of_nil;
                     intuition discriminate]|]).
    by apply elem_of_nil in Hmetric.
Qed.

(** ** Schedules: what the steps keep *)

Section Steps.

Variable json_Unmarshal : string -> option stats.Summary.

Lemma poll_cycle_extends inp w w' g :
  poll_cycle json_Unmarshal inp w = Looped w' g ->
  store_extends (heap w) (heap w') /\ sliceHeap (heap w') = sliceHeap (heap w).
Proof.
  unfold poll_cycle. destruct (json_Unmarshal (content inp)) as [raw|]; [|done].
  destruct (build_snapshot _ _ _ _) as [snap h] eqn:Hb.
  intros [= <- <-]. simpl.
  apply build_snapshot_spec in Hb as (Hext & Hsl & _). by split.
Qed.

(** Every step only adds to the three heaps. *)
Lemma step_extends a w w' :
  step json_Unmarshal a w = Stepped w' ->
  store_extends (heap w) (heap w')
  /\ sliceHeap (heap w) `prefix_of` sliceHeap (heap w').
Proof.
  destruct a as [| | |i c inp|]; simpl.
  - destruct (lock (mgr w)); [done|]. unfold Start.
    destruct (running (mgr w)); intros [= <-]; simpl;
      (split; [apply store_extends_refl|reflexivity]).
  - destruct (lock (mgr w)); [done|]. unfold Stop.
    destruct (running (mgr w)); simpl.
    + destruct (stopCh (mgr w)); [done| |done].
      destruct (wg (mgr w)); intros [= <-]; simpl;
        (split; [apply store_extends_refl|reflexivity]).
    + intros [= <-]; simpl. split; [apply store_extends_refl|reflexivity].
  - destruct (RecentStats w) as [[s w1]|] eqn:Hread; [|done].
    apply RecentStats_Some in Hread as (ret & _ & _ & Hsl & Hr & Hf & _).
    intros [= <-]. unfold store_extends. rewrite Hsl, Hr, Hf.
    repeat split; try reflexivity. by apply prefix_app_r.
  - destruct (goroutines w !! i); [|done].
    destruct (select_ready (mgr w) c); [|done].
    destruct (loop_iteration json_Unmarshal c inp w) as [w1 g1|w1|] eqn:Hit; [| |done].
    + intros [= <-]. simpl. unfold loop_iteration in Hit.
      destruct (select_arm c); [|done].
      apply poll_cycle_extends in Hit as [Hext Hsl]. rewrite Hsl. by split.
    + by apply loop_iteration_never_exits in Hit.
  - unfold Stop_resume. destruct (lock (mgr w)); [|done].
    destruct (wg (mgr w)); [|done]. intros [= <-]; simpl.
    split; [apply store_extends_refl|reflexivity].
Qed.

Lemma run_extends acts : forall w w',
  run json_Unmarshal acts w = Some w' ->
  store_extends (heap w) (heap w')
  /\ sliceHeap (heap w) `prefix_of` sliceHeap (heap w').
Proof.
  induction acts as [|a acts IH]; intros w w'; simpl.
  - intros [= <-]. split; [apply store_extends_refl|reflexivity].
  - destruct (step json_Unmarshal a w) as [w1| |] eqn:Hs; [| |done].
    + intros Hrun. apply step_extends in Hs as [He1 Hs1].
      apply IH in Hrun as [He2 Hs2].
      split; [by eapply store_extends_trans|by etrans].
    + apply IH.
Qed.

(** A step that is not a turn of the loop leaves the snapshot alone. *)
Lemma step_keeps_snapshot a w w' :
  is_tick a = false ->
  step json_Unmarshal a w = Stepped w' ->
  podEphemeralStorageStats (mgr w') = podEphemeralStorageStats (mgr w)
  /\ recHeap (heap w') = recHeap (heap w)
  /\ fsHeap (heap w') = fsHeap (heap w).
Proof.
  destruct a as [| | |i c inp|]; simpl; [| | |done|]; intros _.
  - destruct (lock (mgr w)); [done|]. unfold Start.
    destruct (running (mgr w)); by intros [= <-].
  - destruct (lock (mgr w)); [done|]. unfold Stop.
    destruct (running (mgr w)); simpl.
    + destruct (stopCh (mgr w)); [done| |done].
      destruct (wg (mgr w)); by intros [= <-].
    + by intros [= <-].
  - destruct (RecentStats w) as [[s w1]|] eqn:Hread; [|done].
    apply RecentStats_Some in Hread as (ret & _ & _ & _ & Hr & Hf & Hm & _).
    intros [= <-]. by rewrite Hm.
  - unfold Stop_resume. destruct (lock (mgr w)); [|done].
    destruct (wg (mgr w)); [|done]. by intros [= <-].
Qed.

Lemma snapshot_view_same w w' :
  podEphemeralStorageStats (mgr w') = podEphemeralStorageStats (mgr w) ->
  recHeap (heap w') = recHeap (heap w) ->
  fsHeap (heap w') = fsHeap (heap w) ->
  snapshot_view w' = snapshot_view w.
Proof.
  intros Hp Hr Hf. unfold snapshot_view. rewrite Hp.
  apply mapM_ext. intros p. unfold view_ptr, view_rec. by rewrite Hr, Hf.
Qed.

Lemma run_app acts1 acts2 w :
  run json_Unmarshal (acts1 ++ acts2) w
  = match run json_Unmarshal acts1 w with
    | Some w1 => run json_Unmarshal acts2 w1
    | None => None
    end.
Proof.
  revert w. induction acts1 as [|a acts1 IH]; intros w; simpl; [done|].
  destruct (step json_Unmarshal a w); by rewrite ?IH.
Qed.

Lemma reachable_run acts w w' :
  reachable json_Unmarshal w -> run json_Unmarshal acts w = Some w' ->
  reachable json_Unmarshal w'.
Proof.
  intros (currentNode & interval & acts0 & Hrun0) Hrun.
  exists currentNode, interval, (acts0 ++ acts). by rewrite run_app, Hrun0.
Qed.

End Steps.

(** ** Stop on a running manager, from any state *)

(** From every reachable state in which the manager runs and [m.lock] is
    free, [Stop] closes the channel and blocks in [m.wg.Wait()].  Under
    every later schedule it stays blocked, the manager stays running with
    its one loop alive, every further call of [Start] or [Stop] is blocked
    on [m.lock], and [RecentStats] still returns. *)
Theorem Stop_blocks_from_every_running_state
    (json_Unmarshal : string -> option stats.Summary) w :
  reachable json_Unmarshal w ->
  running (mgr w) = true ->
  lock (mgr w) = false ->
  exists w2,
    Stop w = StopParked w2
    /\ forall acts w',
         run json_Unmarshal acts w2 = Some w' ->
         running (mgr w') = true
         /\ length (goroutines w') = 1%nat
         /\ step json_Unmarshal StopResumes w' = Disabled
         /\ step json_Unmarshal CallStart w' = Disabled
         /\ step json_Unmarshal CallStop w' = Disabled
         /\ exists s w'', RecentStats w' = Some (s, w'').
Proof.
  intros Hreach Hr Hl.
  destruct (reachable_consistent json_Unmarshal w Hreach)
    as (Hwg & Hle & Hrun & _ & Hopen).
  destruct Hrun as [Hrun _]. specialize (Hrun Hr).
  assert (Hstop : exists w2, Stop w = StopParked w2 /\ parked w2).
  { unfold Stop. rewrite Hr, (Hopen Hr Hl), Hwg, Hrun. simpl.
    eexists. split; [reflexivity|]. unfold parked; simpl. by repeat split. }
  destruct Hstop as (w2 & Hstop & Hparked).
  exists w2. split; [exact Hstop|].
  intros acts w' Hrun'.
  assert (Hreach2 : reachable json_Unmarshal w2).
  { apply (reachable_run json_Unmarshal [CallStop] w w2 Hreach).
    simpl. by rewrite Hl, Hstop. }
  destruct (run_parked json_Unmarshal acts w2 w' Hparked Hrun')
    as (Hl' & Hr' & _ & Hwg' & Hg').
  split; [exact Hr'|]. split; [exact Hg'|].
  unfold step, Stop_resume. rewrite Hl', Hwg'.
  repeat split.
  apply (reachable_RecentStats_returns json_Unmarshal).
  by apply (reachable_run json_Unmarshal acts w2 w').
Qed.

Lemma Stop_blocks_from_every_running_state_witness :
  reachable sample_Unmarshal (after_first_poll "summary: pod-a")
  /\ exists w2,
       Stop (after_first_poll "summary: pod-a") = StopParked w2
       /\ forall acts w',
            run sample_Unmarshal acts w2 = Some w' ->
            running (mgr w') = true
            /\ length (goroutines w') = 1%nat
            /\ step sample_Unmarshal StopResumes w' = Disabled
            /\ step sample_Unmarshal CallStart w' = Disabled
            /\ step sample_Unmarshal CallStop w' = Disabled
            /\ exists s w'', RecentStats w' = Some (s, w'').
Proof.
  assert (Hreach : reachable sample_Unmarshal (after_first_poll "summary: pod-a")).
  { exists (Some "node-1"), (15 * second),
      [CallStart; Tick 0 RecvTimer (fetched "summary: pod-a" second)].
    reflexivity. }
  split; [exact Hreach|].
  apply (Stop_blocks_from_every_running_state sample_Unmarshal
           (after_first_poll "summary: pod-a") Hreach); reflexivity.
Defined.

(** ** Snapshots under later schedules *)

(** The copy a reader took keeps showing the snapshot it was taken from,
    under every later schedule of polls, reads, [Start] and [Stop]: the
    loop publishes by building new records and swapping the slice, it never
    writes a record or a stats object that was published before. *)
Theorem reader_copy_stays_valid
    (json_Unmarshal : string -> option stats.Summary) w vs s w1 acts w' :
  snapshot_view w = Some vs ->
  RecentStats w = Some (s, w1) ->
  run json_Unmarshal acts w1 = Some w' ->
  (exists ret,
     slice_contents w' s = Some ret
     /\ mapM (view_rec (heap w')) ret = Some vs)
  /\ mapM (view_ptr (heap w')) (podEphemeralStorageStats (mgr w)) = Some vs.
Proof.
  intros Hview Hread Hrun.
  destruct (RecentStats_views w vs Hview)
    as (ret & w1' & Hread' & Hslice & Hrecs & _ & Hr & Hf & _).
  rewrite Hread in Hread'. injection Hread' as -> <-.
  destruct (run_extends json_Unmarshal acts w1 w' Hrun) as [Hext Hsl].
  split.
  - exists ret. split.
    + unfold slice_contents in *. by eapply prefix_lookup_Some.
    + apply mapM_Some. eapply Forall2_impl; [exact Hrecs|].
      intros r v. by apply view_rec_extends.
  - apply (mapM_view_extends (heap w1)); [exact Hext|].
    unfold snapshot_view in Hview. rewrite <- Hview.
    apply mapM_ext. intros p. unfold view_ptr, view_rec. by rewrite Hr, Hf.
Qed.

Lemma reader_copy_stays_valid_witness :
  RecentStats (polled "summary: pod-a") = Some (0%nat, reader_state)
  /\ run sample_Unmarshal later_schedule reader_state = Some reader_state_later
  /\ snapshot_view reader_state_later
     = Some [project "node-1" pod_a; project "node-1" pod_b]
  /\ (exists ret,
        slice_contents reader_state_later 0%nat = Some ret
        /\ mapM (view_rec (heap reader_state_later)) ret = Some [project "node-1" pod_a])
  /\ mapM (view_ptr (heap reader_state_later))
       (podEphemeralStorageStats (mgr (polled "summary: pod-a")))
     = Some [project "node-1" pod_a].
Proof.
  assert (Hview : snapshot_view (polled "summary: pod-a")
                  = Some [project "node-1" pod_a]) by (vm_compute; reflexivity).
  assert (Hread : RecentStats (polled "summary: pod-a") = Some (0%nat, reader_state))
    by (vm_compute; reflexivity).
  assert (Hrun : run sample_Unmarshal later_schedule reader_state
                 = Some reader_state_later) by (vm_compute; reflexivity).
  split; [exact Hread|]. split; [exact Hrun|].
  split; [vm_compute; reflexivity|].
  exact (reader_copy_stays_valid sample_Unmarshal (polled "summary: pod-a")
           [project "node-1" pod_a] 0%nat reader_state later_schedule
           reader_state_later Hview Hread Hrun).
Defined.

(** In every reachable state the stored snapshot is whole: it is the empty
    snapshot the manager was created with, or the projection, entry by entry,
    of one payload the decoder produced.  Readers never find a partly built
    or a mixed snapshot. *)
Theorem reachable_snapshot_is_whole
    (json_Unmarshal : string -> option stats.Summary) w :
  reachable json_Unmarshal w ->
  snapshot_view w = Some []
  \/ exists content raw,
       json_Unmarshal content = Some raw
       /\ snapshot_view w
          = Some (map (project (stats.NodeName (stats.Node raw))) (stats.Pods raw)).
Proof.
  intros (currentNode & interval & acts & Hrun).
  set (whole := fun w : world =>
         snapshot_view w = Some []
         \/ exists content raw,
              json_Unmarshal content = Some raw
              /\ snapshot_view w
                 = Some (map (project (stats.NodeName (stats.Node raw)))
                           (stats.Pods raw))).
  assert (Hinit : whole (NewManager currentNode interval)) by (by left).
  revert Hrun Hinit. generalize (NewManager currentNode interval).
  induction acts as [|a acts IH]; intros w0; simpl.
  - by intros [= <-].
  - destruct (step json_Unmarshal a w0) as [w1| |] eqn:Hs; [| |done]; [|apply IH].
    intros Hrun Hw0. apply (IH w1 Hrun).
    destruct (is_tick a) eqn:Ha.
    + destruct a as [| | |i c inp|]; try done. simpl in Hs.
      destruct (goroutines w0 !! i); [|done].
      destruct (select_ready (mgr w0) c); [|done].
      destruct (loop_iteration json_Unmarshal c inp w0) as [w2 g2|w2|] eqn:Hit;
        [| |done].
      * injection Hs as <-. unfold loop_iteration in Hit.
        destruct (select_arm c); [|done].
        destruct (json_Unmarshal (content inp)) as [raw|] eqn:Hdec.
        -- right. exists (content inp), raw. split; [exact Hdec|].
           by destruct (poll_cycle_view json_Unmarshal inp w0 raw w2 g2 Hdec Hit).
        -- unfold poll_cycle in Hit. by rewrite Hdec in Hit.
      * by apply loop_iteration_never_exits in Hit.
    + destruct (step_keeps_snapshot json_Unmarshal a w0 w1 Ha Hs) as (Hp & Hr & Hf).
      unfold whole. by rewrite (snapshot_view_same w0 w1 Hp Hr Hf).
Qed.

Lemma reachable_snapshot_is_whole_witness :
  reachable sample_Unmarshal (after_first_poll "summary: pod-a")
  /\ (snapshot_view (after_first_poll "summary: pod-a") = Some []
      \/ exists content raw,
           sample_Unmarshal content = Some raw
           /\ snapshot_view (after_first_poll "summary: pod-a")
              = Some (map (project (stats.NodeName (stats.Node raw))) (stats.Pods raw))).
Proof.
  assert (Hreach : reachable sample_Unmarshal (after_first_poll "summary: pod-a")).
  { exists (Some "node-1"), (15 * second),
      [CallStart; Tick 0 RecvTimer (fetched "summary: pod-a" second)].
    reflexivity. }
  split; [exact Hreach|].
  exact (reachable_snapshot_is_whole sample_Unmarshal (after_first_poll "summary: pod-a") Hreach).
Defined.

(** ** A manager that was never started *)

(** Under every schedule without a call of [Start] (calls of [Stop], reads,
    attempted loop turns), a new manager stays as it was created: not
    running, no goroutine, the empty snapshot; [RecentStats] returns the
    empty sequence and a scrape sends the error gauge alone. *)
Theorem unstarted_manager_serves_the_empty_snapshot
    (json_Unmarshal : string -> option stats.Summary)
    currentNode interval acts w e :
  CallStart ∉ acts ->
  run json_Unmarshal acts (NewManager currentNode interval) = Some w ->
  running (mgr w) = false
  /\ goroutines w = []
  /\ snapshot_view w = Some []
  /\ (exists s w1, RecentStats w = Some (s, w1) /\ slice_contents w1 s = Some [])
  /\ fst (Collect (collector_with e) w) = [error_gauge_sample].
Proof.
  intros Hno Hrun.
  assert (Hidle : running (mgr w) = false /\ goroutines w = []
                  /\ podEphemeralStorageStats (mgr w) = [] /\ lock (mgr w) = false).
  { assert (Hinit : running (mgr (NewManager currentNode interval)) = false
                    /\ goroutines (NewManager currentNode interval) = []
                    /\ podEphemeralStorageStats (mgr (NewManager currentNode interval)) = []
                    /\ lock (mgr (NewManager currentNode interval)) = false) by done.
    revert Hno Hrun Hinit. generalize (NewManager currentNode interval).
    induction acts as [|a acts IH]; intros w0 Hno; simpl.
    - by intros [= <-].
    - apply not_elem_of_cons in Hno as [Ha Hno].
      intros Hrun (Hr & Hg & Hp & Hl).
      destruct a as [| | |i c inp|]; [done| | | |]; simpl in Hrun.
      + rewrite Hl in Hrun. unfold Stop in Hrun. rewrite Hr in Hrun. simpl in Hrun.
        by apply (IH _ Hno Hrun).
      + unfold RecentStats in Hrun. rewrite Hp in Hrun. simpl in Hrun.
        by apply (IH _ Hno Hrun).
      + rewrite Hg in Hrun. simpl in Hrun. by apply (IH _ Hno Hrun).
      + unfold Stop_resume in Hrun. rewrite Hl in Hrun. by apply (IH _ Hno Hrun). }
  destruct Hidle as (Hr & Hg & Hp & _).
  split; [exact Hr|]. split; [exact Hg|].
  assert (Hview : snapshot_view w = Some []).
  { unfold snapshot_view. by rewrite Hp. }
  split; [exact Hview|]. split.
  - unfold RecentStats. rewrite Hp. simpl. eexists _, _. split; [reflexivity|].
    unfold slice_contents; simpl. by apply list_lookup_middle.
  - unfold Collect, RecentStats. rewrite Hp. simpl.
    unfold slice_contents; simpl.
    by rewrite (list_lookup_middle (sliceHeap (heap w)) [] []).
Qed.

Lemma unstarted_manager_serves_the_empty_snapshot_witness :
  exists w,
    run sample_Unmarshal
      [CallStop; Tick 0 RecvTimer (fetched "summary: pod-a" second); CallRecentStats]
      (NewManager None (15 * second)) = Some w
    /\ snapshot_view w = Some []
    /\ fst (Collect (collector_with 0) w) = [error_gauge_sample].
Proof.
  eexists. split; [reflexivity|].
  destruct (unstarted_manager_serves_the_empty_snapshot sample_Unmarshal
              None (15 * second)
              [CallStop; Tick 0 RecvTimer (fetched "summary: pod-a" second);
               CallRecentStats] _ 0
              ltac:(rewrite !elem_of_cons, elem_of_nil; intuition discriminate)
              eq_refl) as (_ & _ & Hv & _ & Hc).
  by split.
Defined.

(** ** What can crash the process *)

(** In a reachable state no call of [Start], [Stop] or [RecentStats] panics
    ([Stop] never closes a nil or a closed channel, [RecentStats] never
    follows a dangling pointer); the one step that can crash is a turn of the
    loop whose content leaves [raw] nil, which the loop dereferences. *)
Theorem only_a_nil_summary_crashes
    (json_Unmarshal : string -> option stats.Summary) w a :
  reachable json_Unmarshal w ->
  step json_Unmarshal a w = Crashed ->
  exists i c inp, a = Tick i c inp /\ json_Unmarshal (content inp) = None.
Proof.
  intros Hreach.
  destruct (reachable_consistent json_Unmarshal w Hreach)
    as (Hwg & Hle & Hrun & _ & Hopen).
  destruct a as [| | |i c inp|]; simpl.
  - by destruct (lock (mgr w)).
  - destruct (lock (mgr w)) eqn:Hl; [done|]. unfold Stop.
    destruct (running (mgr w)) eqn:Hr; simpl; [|done].
    rewrite (Hopen eq_refl eq_refl). by destruct (wg (mgr w)).
  - destruct (reachable_RecentStats_returns json_Unmarshal w Hreach)
      as (s & w1 & ->). done.
  - destruct (goroutines w !! i); [|done].
    destruct (select_ready (mgr w) c); [|done].
    unfold loop_iteration, poll_cycle. destruct (select_arm c); [|done].
    destruct (json_Unmarshal (content inp)) eqn:Hdec.
    + by destruct (build_snapshot _ _ _ _).
    + intros _. by exists i, c, inp.
  - by destruct (Stop_resume w).
Qed.

Lemma only_a_nil_summary_crashes_witness :
  reachable sample_Unmarshal started
  /\ step sample_Unmarshal (Tick 0 RecvTimer (fetched "null" second)) started = Crashed
  /\ exists i c inp,
       Tick 0 RecvTimer (fetched "null" second) = Tick i c inp
       /\ sample_Unmarshal (content inp) = None.
Proof.
  assert (Hreach : reachable sample_Unmarshal started).
  { exists (Some "node-1"), (15 * second), [CallStart]. reflexivity. }
  split; [exact Hreach|]. split; [reflexivity|].
  exact (only_a_nil_summary_crashes sample_Unmarshal started
           (Tick 0 RecvTimer (fetched "null" second)) Hreach eq_refl).
Defined.

(** ** Pacing of the loop *)

Lemma wrap64_underflow z :
  - 2 ^ 64 <= z < - 2 ^ 63 -> wrap64 z = z + 2 ^ 64.
Proof.
  intros Hz. unfold wrap64.
  replace (z + 2 ^ 63) with (z + 2 ^ 63 + 2 ^ 64 + (-1) * 2 ^ 64) by lia.
  rewrite Z.mod_add by lia. rewrite Z.mod_small; lia.
Qed.

Lemma poll_cycle_timer (json_Unmarshal : string -> option stats.Summary) inp w w' g :
  poll_cycle json_Unmarshal inp w = Looped w' g ->
  timer g = wrap64 (scrapeInterval (mgr w) - elapsed inp).
Proof.
  unfold poll_cycle. destruct (json_Unmarshal (content inp)); [|done].
  destruct (build_snapshot _ _ _ _). by intros [= <- <-].
Qed.



(** When the subtraction underflows [int64] (an interval near the negative
    end of the range), the duration handed to [timer.Reset] wraps around to
    a positive value, [interval - duration + 2^64], and the loop waits that
    long instead of firing at once. *)
Theorem interval_underflow_arms_a_long_wait
    (json_Unmarshal : string -> option stats.Summary) inp w w' g :
  - 2 ^ 63 <= scrapeInterval (mgr w) < 2 ^ 63 ->
  0 <= elapsed inp < 2 ^ 63 ->
  scrapeInterval (mgr w) - elapsed inp < - 2 ^ 63 ->
  poll_cycle json_Unmarshal inp w = Looped w' g ->
  timer g = scrapeInterval (mgr w) - elapsed inp + 2 ^ 64
  /\ effective_wait (timer g) = timer g
  /\ 2 ^ 63 - elapsed inp <= effective_wait (timer g).
Proof.
  intros Hi He Hunder Hc. rewrite (poll_cycle_timer _ _ _ _ _ Hc).
  rewrite wrap64_underflow by lia. unfold effective_wait.
  destruct (Z.leb_spec (scrapeInterval (mgr w) - elapsed inp + 2 ^ 64) 0); lia.
Qed.

Lemma interval_underflow_arms_a_long_wait_witness :
  exists w' g,
    poll_cycle sample_Unmarshal (fetched "summary: pod-a" second)
      (fst (Start (NewManager (Some "node-1") (interval_of_seconds (-9223372036)))))
    = Looped w' g
    /\ timer g = -9223372036 * second - second + 2 ^ 64
    /\ effective_wait (timer g) = timer g.
Proof.
  eexists _, _. split; [reflexivity|].
  destruct (interval_underflow_arms_a_long_wait sample_Unmarshal
              (fetched "summary: pod-a" second)
              (fst (Start (NewManager (Some "node-1") (interval_of_seconds (-9223372036)))))
              _ _
              ltac:(vm_compute; split; [discriminate|reflexivity])
              ltac:(vm_compute; split; [discriminate|reflexivity])
              ltac:(vm_compute; reflexivity)
              eq_refl) as (Ht & Hw & _).
  split; [exact Ht|exact Hw].
Defined.

(** ** main.go: from seconds to the interval of the loop *)

(** The interval [main] hands to [NewManager] is the number of seconds times
    10^9 exactly for every setting between -9223372036 and 9223372036; the
    product wraps beyond (9223372037 seconds already give a negative
    interval).  With a setting in that range that is not negative and a turn
    no slower than it, the loop waits the remainder of the interval. *)
Theorem interval_of_seconds_and_first_wait
    (json_Unmarshal : string -> option stats.Summary)
    currentNode secs inp raw :
  0 <= secs <= 9223372036 ->
  0 <= elapsed inp <= secs * second ->
  json_Unmarshal (content inp) = Some raw ->
  interval_of_seconds secs = secs * second
  /\ interval_of_seconds (- secs) = - (secs * second)
  /\ interval_of_seconds 9223372037 < 0
  /\ exists w' g,
       poll_cycle json_Unmarshal inp
         (fst (Start (NewManager currentNode (interval_of_seconds secs))))
       = Looped w' g
       /\ effective_wait (timer g) = secs * second - elapsed inp.
Proof.
  intros Hs He Hdec.
  assert (Hexact : interval_of_seconds secs = secs * second).
  { unfold interval_of_seconds, second. apply wrap64_in_range. lia. }
  split; [exact Hexact|]. split.
  { unfold interval_of_seconds, second. rewrite wrap64_in_range; lia. }
  split; [by vm_compute|].
  destruct (poll_cycle_decoded json_Unmarshal inp
              (fst (Start (NewManager currentNode (interval_of_seconds secs))))
              raw Hdec) as (w' & g & Hc & _ & _ & _ & _ & Ht).
  exists w', g. split; [exact Hc|].
  rewrite Ht. simpl scrapeInterval. rewrite Hexact.
  unfold second in *. rewrite wrap64_in_range by lia.
  unfold effective_wait.
  destruct (Z.leb_spec (secs * 1000000000 - elapsed inp) 0); lia.
Qed.

Lemma interval_of_seconds_and_first_wait_witness :
  interval_of_seconds 15 = 15 * second
  /\ exists w' g,
       poll_cycle sample_Unmarshal (fetched "summary: pod-a" second)
         (fst (Start (NewManager (Some "node-1") (interval_of_seconds 15))))
       = Looped w' g
       /\ effective_wait (timer g) = 15 * second - second.
Proof.
  destruct (interval_of_seconds_and_first_wait sample_Unmarshal (Some "node-1") 15
              (fetched "summary: pod-a" second) (summary_of [pod_a])
              ltac:(vm_compute; split; discriminate)
              ltac:(vm_compute; split; discriminate)
              eq_refl) as (Hexact & _ & _ & Hwait).
  split; [exact Hexact|exact Hwait].
Defined.

(** ** main.go: the default taken from the environment *)

Lemma parse_digits_uint_pos d : forall acc : positive,
  parse_digits (NilEmpty.string_of_uint d) (Z.pos acc)
  = Some (Z.pos (Pos.of_uint_acc d acc)).
Proof.
  induction d as [|d IH|d IH|d IH|d IH|d IH|d IH|d IH|d IH|d IH|d IH];
    intros acc; simpl; [done|..];
    unfold digit_value; rewrite <- IH; f_equal;
    match goal with
    | |- context [nat_of_ascii ?c] =>
        let v := eval vm_compute in (Z.of_nat (nat_of_ascii c)) in
        change (Z.of_nat (nat_of_ascii c)) with v
    end; lia.
Qed.

Lemma parse_digits_uint d :
  parse_digits (NilEmpty.string_of_uint d) 0 = Some (Z.of_N (Pos.of_uint d)).
Proof.
  induction d as [|d IH|d IH|d IH|d IH|d IH|d IH|d IH|d IH|d IH|d IH];
    simpl; [done|exact IH|..];
    unfold digit_value;
    match goal with
    | |- context [nat_of_ascii ?c] =>
        let v := eval vm_compute in (Z.of_nat (nat_of_ascii c)) in
        change (Z.of_nat (nat_of_ascii c)) with v
    end; apply parse_digits_uint_pos.
Qed.

Lemma string_of_uint_head d :
  d <> Decimal.Nil ->
  exists c rest,
    NilEmpty.string_of_uint d = String c rest
    /\ Ascii.eqb c "+" = false /\ Ascii.eqb c "-" = false.
Proof. destruct d; [done|..]; intros _; by eexists _, _. Qed.

Lemma ParseInt_unsigned c rest :
  Ascii.eqb c "+" = false -> Ascii.eqb c "-" = false ->
  ParseInt (String c rest)
  = match parse_digits (String c rest) 0 with
    | Some un => if un <? 2 ^ 63 then Some un else None
    | None => None
    end.
Proof. intros Hp Hm. unfold ParseInt. by rewrite Hp, Hm. Qed.

Lemma ParseInt_negative c rest :
  ParseInt (String "-" (String c rest))
  = match parse_digits (String c rest) 0 with
    | Some un => if un <=? 2 ^ 63 then Some (- un) else None
    | None => None
    end.
Proof. reflexivity. Qed.

Lemma string_of_uint_nonnil d :
  d <> Decimal.Nil -> NilZero.string_of_uint d = NilEmpty.string_of_uint d.
Proof. by destruct d. Qed.

(** [ParseInt] reads back the decimal rendering of an integer, and rejects
    it when the integer does not fit an [int64]. *)
Lemma ParseInt_decimal n :
  ParseInt (decimal n)
  = if (- 2 ^ 63 <=? n) && (n <? 2 ^ 63) then Some n else None.
Proof.
  unfold decimal. destruct n as [|p|p]; [reflexivity|..]; simpl Z.to_int;
    pose proof (DecimalPos.Unsigned.to_uint_nonnil p) as Hnil;
    unfold NilZero.string_of_int;
    rewrite (string_of_uint_nonnil _ Hnil);
    destruct (string_of_uint_head (Pos.to_uint p) Hnil) as (c & rest & Hs & Hp & Hm).
  - rewrite Hs, (ParseInt_unsigned c rest Hp Hm), <- Hs, parse_digits_uint,
      DecimalPos.Unsigned.of_to. simpl Z.of_N.
    destruct (Z.ltb_spec (Z.pos p) (2 ^ 63)), (Z.leb_spec (- 2 ^ 63) (Z.pos p));
      simpl; try done; lia.
  - rewrite Hs, ParseInt_negative, <- Hs, parse_digits_uint,
      DecimalPos.Unsigned.of_to. simpl Z.of_N.
    destruct (Z.leb_spec (Z.pos p) (2 ^ 63)), (Z.leb_spec (- 2 ^ 63) (Z.neg p)),
      (Z.ltb_spec (Z.neg p) (2 ^ 63));
      simpl; try done; lia.
Qed.

(** When the variable holds the decimal rendering of an integer,
    [int64FromEnv] returns that integer if it fits an [int64], and the
    default otherwise. *)
Theorem int64FromEnv_reads_decimal environ env defaultValue n :
  environ env = Some (decimal n) ->
  int64FromEnv environ env defaultValue
  = if (- 2 ^ 63 <=? n) && (n <? 2 ^ 63) then n else defaultValue.
Proof.
  intros Henv. unfold int64FromEnv. rewrite Henv, ParseInt_decimal.
  by destruct ((- 2 ^ 63 <=? n) && (n <? 2 ^ 63)).
Qed.

Lemma int64FromEnv_reads_decimal_witness :
  decimal 30 = "30"
  /\ int64FromEnv (fun _ => Some "30") "SCRAPE_INTERVAL_SECOND" 15 = 30
  /\ int64FromEnv (fun _ => Some (decimal (2 ^ 63))) "SCRAPE_INTERVAL_SECOND" 15 = 15.
Proof.
  split; [reflexivity|]. split.
  - apply (int64FromEnv_reads_decimal (fun _ => Some "30")
             "SCRAPE_INTERVAL_SECOND" 15 30). reflexivity.
  - apply (int64FromEnv_reads_decimal (fun _ => Some (decimal (2 ^ 63)))
             "SCRAPE_INTERVAL_SECOND" 15 (2 ^ 63)). reflexivity.
Defined.

Lemma parse_digits_nondigit s : forall acc c,
  In c (String.list_ascii_of_string s) -> is_digit c = false -> parse_digits s acc = None.
Proof.
  induction s as [|c0 s IH]; intros acc c; simpl; [done|].
  intros [->|Hin] Hc.
  - by rewrite Hc.
  - destruct (is_digit c0); [|done]. by eapply IH.
Qed.

(** [int64FromEnv] falls back to the default when the variable is unset,
    empty, a bare sign, or has any character other than a digit after its
    first one (a unit suffix, a decimal point, a space, an underscore). *)
Theorem int64FromEnv_falls_back_on_malformed environ env defaultValue :
  environ env = None
  \/ environ env = Some ""
  \/ environ env = Some "+"
  \/ environ env = Some "-"
  \/ (exists c0 rest c,
        environ env = Some (String c0 rest)
        /\ In c (String.list_ascii_of_string rest) /\ is_digit c = false) ->
  int64FromEnv environ env defaultValue = defaultValue.
Proof.
  unfold int64FromEnv.
  intros [->|[->|[->|[->|(c0 & rest & c & -> & Hin & Hc)]]]]; try reflexivity.
  assert (Hrest : forall acc, parse_digits rest acc = None).
  { intros acc. by eapply parse_digits_nondigit. }
  unfold ParseInt.
  destruct (Ascii.eqb c0 "+"); [|destruct (Ascii.eqb c0 "-")].
  - destruct rest; [done|]. by rewrite Hrest.
  - destruct rest; [done|]. by rewrite Hrest.
  - simpl. destruct (is_digit c0); [|done]. by rewrite Hrest.
Qed.

Lemma int64FromEnv_falls_back_on_malformed_witness :
  int64FromEnv (fun _ => Some "15s") "SCRAPE_INTERVAL_SECOND" 15 = 15.
Proof.
  apply (int64FromEnv_falls_back_on_malformed (fun _ => Some "15s")
           "SCRAPE_INTERVAL_SECOND" 15).
  do 4 right. exists "1"%char, "5s", "s"%char.
  split; [reflexivity|]. split; [simpl; tauto|reflexivity].
Defined.

(** ** A poll followed by a scrape *)

(** After a turn of the loop has published a decoded payload, a scrape
    returns exactly when every pod entry of that payload had its three byte
    counts, and then it sends the 3n + 1 samples of those entries; one entry
    without stats or without one count makes the scrape panic. *)
Theorem poll_then_scrape
    (json_Unmarshal : string -> option stats.Summary) inp w raw e :
  json_Unmarshal (content inp) = Some raw ->
  exists w' g,
    poll_cycle json_Unmarshal inp w = Looped w' g
    /\ (is_Some (snd (Collect (collector_with e) w'))
        <-> Forall (fun podStat =>
                      has_all_bytes (project (stats.NodeName (stats.Node raw)) podStat)
                      = true) (stats.Pods raw))
    /\ forall cs,
         map (project (stats.NodeName (stats.Node raw))) (stats.Pods raw)
         = map complete_view cs ->
         fst (Collect (collector_with e) w') = expected_samples cs
         /\ length (fst (Collect (collector_with e) w'))
            = (3 * length (stats.Pods raw) + 1)%nat.
Proof.
  intros Hdec.
  destruct (poll_cycle_decoded json_Unmarshal inp w raw Hdec) as (w' & g & Hc & _).
  destruct (poll_cycle_view json_Unmarshal inp w raw w' g Hdec Hc) as [Hview _].
  exists w', g. split; [exact Hc|]. split.
  - rewrite (Collect_returns_iff e w' _ Hview). by rewrite Forall_fmap.
  - intros cs Hcs. rewrite Hcs in Hview.
    destruct (Collect_complete_samples e w' cs Hview) as (Hout & Hlen & _).
    split; [exact Hout|]. rewrite Hlen.
    apply (f_equal length) in Hcs. rewrite !length_map in Hcs. by rewrite Hcs.
Qed.

Lemma poll_then_scrape_witness :
  exists w' g,
    poll_cycle sample_Unmarshal (fetched "summary: pod-a, pod-b" second) started
    = Looped w' g
    /\ ~ is_Some (snd (Collect (collector_with 0) w')).
Proof.
  destruct (poll_then_scrape sample_Unmarshal
              (fetched "summary: pod-a, pod-b" second) started
              (summary_of [pod_a; pod_b]) 0 eq_refl)
    as (w' & g & Hc & Hiff & _).
  exists w', g. split; [exact Hc|].
  intros Hsome. apply Hiff in Hsome.
  apply Forall_cons in Hsome as [_ Hsome].
  apply Forall_cons in Hsome as [Hb _]. discriminate Hb.
Defined.
